(** * Budget-strategy bot: the allocation state machine and its store

    A shallow embedding of [src/bot.py]: the text parser of [handle_text]
    (a backtracking regular expression), the handlers that mutate the
    module-level dictionary [user_data], and the JSON persistence of
    [load_user_data] / [save_user_data].

    Scope of the model.  Text is ASCII (code points below 128), so that
    [str.strip], [\s], [\d], [str.capitalize] and [int] have their ASCII
    behaviour.  Transport (Telegram replies, keyboards) is reduced to the
    list of messages a handler produces. *)

From Stdlib Require Import ZArith Lia Bool Ascii String List.
From Stdlib Require Import DecimalString DecimalZ DecimalFacts.
From stdpp Require Import base option list gmap strings.

Local Open Scope string_scope.
Local Open Scope list_scope.
Local Open Scope Z_scope.

(** ** Python strings *)

Module PyStr.

(** [str.isspace] on ASCII, which is also the class [\s] of [re] for
    [str] patterns: TAB..CR, FS..US and the space. *)
Definition is_space (c : ascii) : bool :=
  let n := N_of_ascii c in
  ((9 <=? n) && (n <=? 13) || (28 <=? n) && (n <=? 32))%N.

(** The class [\d] on ASCII. *)
Definition is_digit (c : ascii) : bool :=
  let n := N_of_ascii c in ((48 <=? n) && (n <=? 57))%N.

Definition digit_val (c : ascii) : Z := Z.of_N (N_of_ascii c) - 48.

Definition is_upper (c : ascii) : bool :=
  let n := N_of_ascii c in ((65 <=? n) && (n <=? 90))%N.

Definition is_lower (c : ascii) : bool :=
  let n := N_of_ascii c in ((97 <=? n) && (n <=? 122))%N.

Definition to_lower (c : ascii) : ascii :=
  if is_upper c then ascii_of_N (N_of_ascii c + 32) else c.

Definition to_upper (c : ascii) : ascii :=
  if is_lower c then ascii_of_N (N_of_ascii c - 32) else c.

Fixpoint map_str (f : ascii -> ascii) (s : string) : string :=
  match s with
  | EmptyString => EmptyString
  | String c r => String (f c) (map_str f r)
  end.

(** A code point below 128.  The classes and case maps of this module
    are those of Python on such characters; a text all of whose
    characters are ASCII is the scope in which they are used for [str]. *)
Definition is_ascii (c : ascii) : bool := (N_of_ascii c <? 128)%N.

(** Every character of [s] satisfies [p]. *)
Fixpoint all_chars (p : ascii -> bool) (s : string) : bool :=
  match s with
  | EmptyString => true
  | String c r => p c && all_chars p r
  end.

(** The longest prefix of [s] whose characters satisfy [p]. *)
Fixpoint take_while (p : ascii -> bool) (s : string) : string :=
  match s with
  | EmptyString => EmptyString
  | String c r => if p c then String c (take_while p r) else EmptyString
  end.

(** [s] is not empty and does not begin with white space. *)
Definition starts_solid (s : string) : bool :=
  match s with
  | EmptyString => false
  | String c _ => negb (is_space c)
  end.

(** [s.lstrip()] *)
Fixpoint lstrip (s : string) : string :=
  match s with
  | EmptyString => EmptyString
  | String c r => if is_space c then lstrip r else s
  end.

(** [s.rstrip()]: a character is dropped when it is a space and nothing
    remains to its right. *)
Fixpoint rstrip (s : string) : string :=
  match s with
  | EmptyString => EmptyString
  | String c r =>
      match rstrip r with
      | EmptyString => if is_space c then EmptyString else String c EmptyString
      | r' => String c r'
      end
  end.

(** [s.strip()] *)
Definition strip (s : string) : string := rstrip (lstrip s).

(** [s.capitalize()]: first character upper-cased, every other
    character lower-cased. *)
Definition capitalize (s : string) : string :=
  match s with
  | EmptyString => EmptyString
  | String c r => String (to_upper c) (map_str to_lower r)
  end.

(** Title case as the specification words it, which is [s.title()]: the
    first letter of every run of letters upper-cased, the other letters
    lower-cased.  The program does not call it; [capitalize] is compared
    with it below. *)
Fixpoint title_from (in_word : bool) (s : string) : string :=
  match s with
  | EmptyString => EmptyString
  | String c r =>
      if is_upper c || is_lower c
      then String (if in_word then to_lower c else to_upper c) (title_from true r)
      else String c (title_from false r)
  end.

Definition spec_title_case (s : string) : string := title_from false s.

(** The value [int] computes on a run of decimal digits, most
    significant first. *)
Fixpoint digits_value_from (acc : Z) (s : string) : Z :=
  match s with
  | EmptyString => acc
  | String c r => digits_value_from (10 * acc + digit_val c) r
  end.

Definition digits_value (s : string) : Z := digits_value_from 0 s.

(** The white space [int] skips around a literal (C's [isspace]). *)
Definition is_c_space (c : ascii) : bool :=
  let n := N_of_ascii c in ((9 <=? n) && (n <=? 13) || (n =? 32))%N.

Fixpoint lskip (s : string) : string :=
  match s with
  | EmptyString => EmptyString
  | String c r => if is_c_space c then lskip r else s
  end.

Fixpoint rskip (s : string) : string :=
  match s with
  | EmptyString => EmptyString
  | String c r =>
      match rskip r with
      | EmptyString => if is_c_space c then EmptyString else String c EmptyString
      | r' => String c r'
      end
  end.

(** Digits of a base-10 literal: at least one digit, single underscores
    allowed between digits.  [prev] tells whether the previous character
    was a digit. *)
Fixpoint int_body (acc : Z) (prev : bool) (s : string) : option Z :=
  match s with
  | EmptyString => if prev then Some acc else None
  | String c r =>
      if is_digit c then int_body (10 * acc + digit_val c) true r
      else if Ascii.eqb c "_" && prev then int_body acc false r
      else None
  end.

(** [int(s)] in base 10 on an ASCII literal; [None] stands for
    [ValueError].  The interpreter also refuses a literal of more than
    4300 digits; that cap is not part of this function, and the
    statements on keys of a file bound their length instead. *)
Definition py_int (s : string) : option Z :=
  match rskip (lskip s) with
  | String "-" r => Z.opp <$> int_body 0 false r
  | String "+" r => int_body 0 false r
  | t => int_body 0 false t
  end.

(** [str(k)] for an integer. *)
Definition py_str (k : Z) : string := NilZero.string_of_int (Z.to_int k).

End PyStr.

(** ** The pattern of [handle_text]

    [re.search(r"(\d+)\s*%?\s*(?:for|on|to)?\s*(.+)", text, re.I)].
    Each piece of the pattern is a matcher in continuation-passing style:
    it consumes a prefix of the subject and hands the rest to the
    continuation; when the continuation fails it tries its next
    alternative, in the order of the backtracking engine (greedy
    quantifiers give characters back one at a time, alternatives are tried
    left to right, an optional piece is tried present before absent). *)

Module Regex.
Import PyStr.

Section Matchers.
Context {A : Type}.

(** [(p* )] greedy, capturing. *)
Fixpoint star_cap (p : ascii -> bool) (s : string)
    (k : string -> string -> option A) : option A :=
  match s with
  | EmptyString => k EmptyString EmptyString
  | String c r =>
      if p c then
        match star_cap p r (fun g rest => k (String c g) rest) with
        | Some x => Some x
        | None => k EmptyString s
        end
      else k EmptyString s
  end.

(** [(p+)] greedy, capturing. *)
Definition plus_cap (p : ascii -> bool) (s : string)
    (k : string -> string -> option A) : option A :=
  match s with
  | EmptyString => None
  | String c r =>
      if p c then star_cap p r (fun g rest => k (String c g) rest)
      else None
  end.

(** [p*] greedy. *)
Definition star (p : ascii -> bool) (s : string)
    (k : string -> option A) : option A :=
  star_cap p s (fun _ rest => k rest).

(** A literal word; letters compare without case under [re.I]. *)
Fixpoint lit (w : string) (s : string) (k : string -> option A) : option A :=
  match w with
  | EmptyString => k s
  | String a w' =>
      match s with
      | EmptyString => None
      | String c r =>
          if Ascii.eqb (to_lower a) (to_lower c) then lit w' r k else None
      end
  end.

(** [m1|m2] *)
Definition alt (m1 m2 : string -> (string -> option A) -> option A)
    (s : string) (k : string -> option A) : option A :=
  match m1 s k with
  | Some x => Some x
  | None => m2 s k
  end.

(** [m?] greedy. *)
Definition opt (m : string -> (string -> option A) -> option A)
    (s : string) (k : string -> option A) : option A :=
  match m s k with
  | Some x => Some x
  | None => k s
  end.
End Matchers.

(** [.] without [re.DOTALL]: anything but a newline. *)
Definition not_newline (c : ascii) : bool := negb (Ascii.eqb c "010").

(** The whole pattern, anchored at the start of [s]; the result is
    [(group(1), group(2))]. *)
Definition match_here (s : string) : option (string * string) :=
  plus_cap is_digit s (fun g1 s1 =>
  star is_space s1 (fun s2 =>
  opt (lit "%") s2 (fun s3 =>
  star is_space s3 (fun s4 =>
  opt (alt (lit "for") (alt (lit "on") (lit "to"))) s4 (fun s5 =>
  star is_space s5 (fun s6 =>
  plus_cap not_newline s6 (fun g2 _ => Some (g1, g2)))))))).

(** The end of the pattern, [\s*(.+)], once the first group is [g1]. *)
Definition label_tail (g1 : string) (s : string) : option (string * string) :=
  star is_space s (fun s6 => plus_cap not_newline s6 (fun g2 _ => Some (g1, g2))).

(** A match, if any, whose second group begins with a character that is
    not white space. *)
Definition solid_label (o : option (string * string)) : Prop :=
  match o with
  | Some (_, g2) => starts_solid g2 = true
  | None => True
  end.

(** [re.search]: the first start position, left to right, at which the
    pattern matches. *)
Fixpoint re_search (s : string) : option (string * string) :=
  match match_here s with
  | Some m => Some m
  | None =>
      match s with
      | EmptyString => None
      | String _ r => re_search r
      end
  end.

End Regex.

(** ** Parsing of one message (lines 134-146 of [handle_text]) *)

Module Parser.
Import PyStr Regex.

(** [pct, category = int(match.group(1)), match.group(2).strip().capitalize()]
    on [text = update.message.text.strip()]; [None] when there is no
    match.  It is the parse of the program on messages of ASCII
    characters; the statements about what a message parses to are made
    for such messages. *)
Definition parse_entry (raw : string) : option (Z * string) :=
  match re_search (strip raw) with
  | None => None
  | Some (g1, g2) => Some (digits_value g1, capitalize (strip g2))
  end.

End Parser.

(** ** The persisted document

    [json.dump] and [json.load] are library code: the file is modelled by
    what [open] and [json.load] make of it, a decoded JSON document or one
    of the two exceptions [load_user_data] handles. *)

Module Store.
Import PyStr.

#[local] Set Warnings "-register-all".

Inductive json : Type :=
| JNull
| JBool (b : bool)
| JInt (n : Z)
| JFloat (literal : string)
| JStr (s : string)
| JArr (items : list json)
| JObj (members : list (string * json)).

(** What [open], the read and [json.load] can raise besides the two
    exceptions [load_user_data] handles. *)
Inductive read_error : Type :=
| OtherOSError           (* [open] or the read: [PermissionError], [IsADirectoryError], ... *)
| UnicodeDecodeError     (* the bytes are not UTF-8; a subclass of [ValueError] *)
| RecursionError         (* the document is nested too deep for the decoder *)
| OtherError.            (* anything else they raise, such as [MemoryError] *)

(** The state of [DATA_FILE]. *)
Inductive file : Type :=
| Missing                (* [open] raises [FileNotFoundError] *)
| Unreadable (e : read_error)  (* [open], the read or [json.load] raises [e] *)
| Corrupt                (* [json.load] raises [json.JSONDecodeError] *)
| Doc (data : json).     (* [json.load] returns [data] *)

Inductive exn : Type :=
| ValueError             (* raised by [int(k)] on a key that is no integer literal *)
| AttributeError         (* [data.items()] on a document that is no object *)
| ReadError (e : read_error).  (* raised inside the [with] block and not handled *)

(** A key within the scope of [py_int]: ASCII characters, at most 4300
    of them. *)
Definition plain_key (k : string) : Prop :=
  all_chars is_ascii k = true ∧ (String.length k <= 4300)%nat.

(** [{int(k): v for k, v in data.items()}]: members are visited in
    order, a later member replaces an earlier one with the same integer
    key, and the first key [int] rejects raises. *)
Fixpoint int_keys (members : list (string * json)) (acc : gmap Z json)
    : exn + gmap Z json :=
  match members with
  | [] => inr acc
  | (k, v) :: rest =>
      match py_int k with
      | None => inl ValueError
      | Some n => int_keys rest (<[n := v]> acc)
      end
  end.

(** The keys of the file are within the scope of [py_int]. *)
Definition plain_keys (f : file) : Prop :=
  match f with
  | Doc (JObj members) => Forall (fun kv : string * json => plain_key kv.1) members
  | _ => True
  end.

(** [load_user_data()]; [inl e] is the exception that leaves the
    function. *)
Definition load_user_data (f : file) : exn + gmap Z json :=
  match f with
  | Missing => inr ∅
  | Unreadable e => inl (ReadError e)
  | Corrupt => inr ∅
  | Doc (JObj members) => int_keys members ∅
  | Doc _ => inl AttributeError
  end.

End Store.

(** ** The handlers *)

Module Bot.
Import PyStr Regex Parser Store.

(** One value of [user_data]: [{"categories": [...], "total": n}]. *)
Record plan : Type := Plan {
  categories : list (string * Z);
  total : Z
}.

Definition empty_plan : plan := {| categories := []; total := 0 |}.

(** What [json.dump] writes for a plan; a [(category, pct)] tuple becomes
    a two-element array. *)
Definition entry_to_json (e : string * Z) : json :=
  JArr [JStr e.1; JInt e.2].

Definition plan_to_json (p : plan) : json :=
  JObj [("categories", JArr (entry_to_json <$> categories p));
        ("total", JInt (total p))].

(** [v[key]] on a decoded object; of two members with one key
    [json.load] keeps the later. *)
Definition member (key : string) (members : list (string * json)) : option json :=
  foldl (fun acc kv => if String.eqb kv.1 key then Some kv.2 else acc) None members.

(** [cat, pct = item] on an item of a loaded list of categories. *)
Definition json_to_entry (j : json) : option (string * Z) :=
  match j with
  | JArr [JStr c; JInt n] => Some (c, n)
  | _ => None
  end.

(** The plan the handlers read in a loaded record [v]: the items of
    [v["categories"]] unpacked as [cat, pct], and [v["total"]]. *)
Definition json_to_plan (v : json) : option plan :=
  match v with
  | JObj members =>
      match member "categories" members, member "total" members with
      | Some (JArr items), Some (JInt t) =>
          (fun l => {| categories := l; total := t |}) <$> mapM json_to_entry items
      | _, _ => None
      end
  | _ => None
  end.

(** The process state: the dictionary [user_data], the data file,
    whether the file system accepts a write, and the number of calls
    of [save_user_data] so far. *)
Record world : Type := World {
  user_data : gmap Z plan;
  disk : file;
  disk_ok : bool;
  saves : nat
}.

Definition with_user_data (ud : gmap Z plan) (w : world) : world :=
  {| user_data := ud; disk := disk w; disk_ok := disk_ok w; saves := saves w |}.

(** [{str(k): v for k, v in user_data.items()}] *)
Definition serializable (ud : gmap Z plan) : list (string * json) :=
  (fun kv => (py_str kv.1, plan_to_json kv.2)) <$> map_to_list ud.

(** [save_user_data()]: the whole snapshot replaces the file; when the
    write raises, the exception is logged and the file keeps its
    previous content. *)
Definition save_user_data (w : world) : world :=
  {| user_data := user_data w;
     disk := if disk_ok w then Doc (JObj (serializable (user_data w))) else disk w;
     disk_ok := disk_ok w;
     saves := S (saves w) |}.

(** [get_summary(chat_id)] *)
Inductive summary : Type :=
| NoCategories
| Strategy (lines : list (string * Z)) (total remaining : Z).

Definition get_summary (ud : gmap Z plan) (chat_id : Z) : summary :=
  match ud !! chat_id with
  | None => NoCategories
  | Some p =>
      match categories p with
      | [] => NoCategories
      | _ => Strategy (categories p) (total p) (100 - total p)
      end
  end.

(** The messages the handlers hand to the transport, with the values
    interpolated into them. *)
Inductive reply : Type :=
| MsgBegin                                   (* "Let's start building ..." *)
| MsgNotUnderstood                           (* "I couldn't understand that." *)
| MsgRange                                   (* "Percentage must be between 1 and 100." *)
| MsgOnlyLeft (remaining : Z)                (* "Only {100 - total}% left to assign." *)
| MsgAdded (category : string) (pct : Z) (s : summary)
| MsgComplete                                (* "Strategy complete!" *)
| MsgNext                                    (* "What would you like to do next?" *)
| MsgRemoved (category : string) (pct : Z) (s : summary)
| MsgNothingToUndo                           (* "Nothing to undo." *)
| MsgReset                                   (* "Your budget strategy has been reset." *)
| MsgSummary (s : summary).

(** The value a conversation handler returns. *)
Inductive conv : Type := STRATEGY_EDIT | END.

(** The part of a Telegram update the handlers read. *)
Record Update : Type := {
  effective_chat : option Z;
  message : option string
}.

Definition outcome : Type := world * list reply * conv.

(** [begin_strategy] *)
Definition begin_strategy (u : Update) (w : world) : outcome :=
  match effective_chat u with
  | None => (w, [], END)
  | Some chat_id =>
      let w1 := with_user_data (<[chat_id := empty_plan]> (user_data w)) w in
      (save_user_data w1, [MsgBegin], STRATEGY_EDIT)
  end.

(** [handle_text] *)
Definition handle_text (u : Update) (w : world) : outcome :=
  match effective_chat u, message u with
  | Some chat_id, Some raw =>
      match parse_entry raw with
      | None => (w, [MsgNotUnderstood], STRATEGY_EDIT)
      | Some (pct, category) =>
          if negb ((0 <? pct) && (pct <=? 100)) then
            (w, [MsgRange], STRATEGY_EDIT)
          else
            (* ensure the user's data exists *)
            let w1 :=
              match user_data w !! chat_id with
              | Some _ => w
              | None => with_user_data (<[chat_id := empty_plan]> (user_data w)) w
              end in
            let p := default empty_plan (user_data w1 !! chat_id) in
            if 100 <? total p + pct then
              (w1, [MsgOnlyLeft (100 - total p)], STRATEGY_EDIT)
            else
              let p' := {| categories := categories p ++ [(category, pct)];
                           total := total p + pct |} in
              let w2 := save_user_data
                          (with_user_data (<[chat_id := p']> (user_data w1)) w1) in
              let added := MsgAdded category pct (get_summary (user_data w2) chat_id) in
              if total p' =? 100 then (w2, [added; MsgComplete], END)
              else (w2, [added; MsgNext], STRATEGY_EDIT)
      end
  | _, _ => (w, [], STRATEGY_EDIT)
  end.

(** [list.pop()] on a non-empty list: the list without its last element,
    and that element. *)
Fixpoint pop {A : Type} (l : list A) : option (list A * A) :=
  match l with
  | [] => None
  | x :: r =>
      match pop r with
      | None => Some ([], x)
      | Some (r', y) => Some (x :: r', y)
      end
  end.

(** [undo] *)
Definition undo (u : Update) (w : world) : outcome :=
  match effective_chat u with
  | None => (w, [], STRATEGY_EDIT)
  | Some chat_id =>
      match user_data w !! chat_id with
      | None => (w, [MsgNothingToUndo], STRATEGY_EDIT)
      | Some p =>
          match pop (categories p) with
          | None => (w, [MsgNothingToUndo], STRATEGY_EDIT)
          | Some (rest, (cat, pct)) =>
              let p' := {| categories := rest; total := total p - pct |} in
              let w1 := save_user_data
                          (with_user_data (<[chat_id := p']> (user_data w)) w) in
              (w1, [MsgRemoved cat pct (get_summary (user_data w1) chat_id)],
               STRATEGY_EDIT)
          end
      end
  end.

(** [cancel] *)
Definition cancel (u : Update) (w : world) : outcome :=
  match effective_chat u with
  | None => (w, [], END)
  | Some chat_id =>
      (save_user_data (with_user_data (delete chat_id (user_data w)) w),
       [MsgReset], END)
  end.

(** [status_cmd]; it returns nothing, the world is threaded through to
    show that it is left alone. *)
Definition status_cmd (u : Update) (w : world) : world * list reply :=
  match effective_chat u with
  | None => (w, [])
  | Some chat_id => (w, [MsgSummary (get_summary (user_data w) chat_id)])
  end.

(** The events the dispatcher routes to the handlers above. *)
Inductive event : Type :=
| EvStrategy (u : Update)
| EvText (u : Update)
| EvUndo (u : Update)
| EvCancel (u : Update)
| EvStatus (u : Update).

Definition dispatch (ev : event) (w : world) : world :=
  match ev with
  | EvStrategy u => (begin_strategy u w).1.1
  | EvText u => (handle_text u w).1.1
  | EvUndo u => (undo u w).1.1
  | EvCancel u => (cancel u w).1.1
  | EvStatus u => (status_cmd u w).1
  end.

(** Worlds reached from an empty [user_data] by any sequence of events. *)
Inductive reachable : world -> Prop :=
| reach_fresh w : user_data w = ∅ -> reachable w
| reach_step ev w : reachable w -> reachable (dispatch ev w).

(** The messages that report a rejected operation. *)
Definition is_failure (m : reply) : bool :=
  match m with
  | MsgNotUnderstood | MsgRange | MsgOnlyLeft _ | MsgNothingToUndo => true
  | _ => false
  end.

Definition rejected (o : outcome) : Prop :=
  ∃ m, m ∈ o.1.2 ∧ is_failure m = true.

(** An update carrying a text message from chat [chat_id]. *)
Definition text_update (chat_id : Z) (raw : string) : Update :=
  {| effective_chat := Some chat_id; message := Some raw |}.

(** An update carrying a command or button press from chat [chat_id]. *)
Definition command_update (chat_id : Z) : Update :=
  {| effective_chat := Some chat_id; message := None |}.

(** The world of a process that starts with no data file. *)
Definition fresh : world :=
  {| user_data := ∅; disk := Missing; disk_ok := true; saves := 0 |}.

(** The sum of the percents of a list of entries. *)
Definition sum_percents (l : list (string * Z)) : Z :=
  foldr (fun e acc => e.2 + acc) 0 l.

(** The invariant of a plan. *)
Definition plan_ok (p : plan) : Prop :=
  0 <= total p <= 100 ∧ total p = sum_percents (categories p).

(** The invariant in the form every handler preserves: the entries
    carry positive percents. *)
Definition plan_inv (p : plan) : Prop :=
  plan_ok p ∧ Forall (fun e : string * Z => 0 < e.2) (categories p).

Definition store_inv (ud : gmap Z plan) : Prop :=
  ∀ k p, ud !! k = Some p -> plan_inv p.

(** The plan a handler works on for [chat_id]: the stored one, or the
    empty plan [handle_text] creates when there is none. *)
Definition current_plan (w : world) (chat_id : Z) : plan :=
  default empty_plan (user_data w !! chat_id).

(** [texts] are accepted one after the other as entries of [chat_id],
    taking [w] to [w']. *)
Inductive adds (chat_id : Z) : world -> list string -> world -> Prop :=
| adds_nil w : adds chat_id w [] w
| adds_cons w raw texts w1 w' category pct s rest c :
    handle_text (text_update chat_id raw) w
      = (w1, MsgAdded category pct s :: rest, c) ->
    adds chat_id w1 texts w' ->
    adds chat_id w (raw :: texts) w'.

(** [n] presses of undo in chat [chat_id]. *)
Definition undo_n (chat_id : Z) (n : nat) (w : world) : world :=
  Nat.iter n (fun w0 => (undo (command_update chat_id) w0).1.1) w.

End Bot.

(** ** Runs of events *)

Module Runs.
Import PyStr Regex Parser Store Bot.

(** The chat an event comes from, when the update carries one. *)
Definition event_chat (ev : event) : option Z :=
  match ev with
  | EvStrategy u | EvText u | EvUndo u | EvCancel u | EvStatus u => effective_chat u
  end.

(** The messages the handler of an event produces. *)
Definition replies (ev : event) (w : world) : list reply :=
  match ev with
  | EvStrategy u => (begin_strategy u w).1.2
  | EvText u => (handle_text u w).1.2
  | EvUndo u => (undo u w).1.2
  | EvCancel u => (cancel u w).1.2
  | EvStatus u => (status_cmd u w).2
  end.

(** The events of a list handled one after the other. *)
Definition run (evs : list event) (w : world) : world :=
  foldl (fun w0 ev => dispatch ev w0) w evs.

(** The file holds the snapshot of [user_data]: a restart, which sets
    [user_data = load_user_data()], finds the records of the plans in
    memory. *)
Definition synced (w : world) : Prop :=
  load_user_data (disk w) = inr (plan_to_json <$> user_data w).

(** A digit occurs in [s] before its last character. *)
Fixpoint digit_before_last (s : string) : bool :=
  match s with
  | EmptyString => false
  | String c r =>
      match r with
      | EmptyString => false
      | _ => is_digit c || digit_before_last r
      end
  end.

(** [s] with its last character removed, and that character. *)
Fixpoint split_last (s : string) : option (string * ascii) :=
  match s with
  | EmptyString => None
  | String c r =>
      match split_last r with
      | None => Some (EmptyString, c)
      | Some (body, d) => Some (String c body, d)
      end
  end.

(** A stored label: not empty, no white space around it, on one line. *)
Definition label_ok (c : string) : Prop :=
  starts_solid c = true ∧ strip c = c ∧ all_chars not_newline c = true.

(** [c] is, in either case, the first letter of a connector word. *)
Definition connector_initial (c : ascii) : bool :=
  Ascii.eqb (to_lower c) "f" || Ascii.eqb (to_lower c) "o" || Ascii.eqb (to_lower c) "t".

(** What [get_summary] shows of a plan. *)
Definition plan_summary (p : plan) : summary :=
  match categories p with
  | [] => NoCategories
  | _ => Strategy (categories p) (total p) (100 - total p)
  end.

(** A stored entry: such a label with a percent from 1 to 100. *)
Definition entry_ok (e : string * Z) : Prop :=
  label_ok e.1 ∧ 1 <= e.2 <= 100.

(** The two groups of a match, if there is one, satisfy [Q]. *)
Definition groups_sat (Q : string -> string -> Prop)
    (o : option (string * string)) : Prop :=
  match o with
  | Some (g1, g2) => Q g1 g2
  | None => True
  end.

End Runs.

Import PyStr Regex Parser Store Bot Runs.

(** * Properties *)

(** ** The parser on sample messages *)

Example parse_needs : parse_entry "50% Needs" = Some (50, "Needs").
Proof. reflexivity. Qed.

Example parse_on : parse_entry "  20 % on  fun  " = Some (20, "Fun").
Proof. reflexivity. Qed.

Example parse_bare_number : parse_entry "50" = Some (5, "0").
Proof. reflexivity. Qed.

Example parse_percent_only : parse_entry "50%" = Some (50, "%").
Proof. reflexivity. Qed.

Example parse_single_digit : parse_entry "5" = None.
Proof. reflexivity. Qed.

(** ** The handlers on sample conversations *)

Example first_entry_summary :
  (handle_text (text_update 7 "50% Needs")
     (begin_strategy (command_update 7) fresh).1.1).1.2
  = [MsgAdded "Needs" 50 (Strategy [("Needs", 50)] 50 50); MsgNext].
Proof. vm_compute. reflexivity. Qed.

Example third_entry_completes :
  (handle_text (text_update 7 "30% Fun")
     (handle_text (text_update 7 "30% Savings")
        (handle_text (text_update 7 "40% Needs") fresh).1.1).1.1).2
  = END.
Proof. vm_compute. reflexivity. Qed.

Example entry_after_completion_is_rejected :
  (handle_text (text_update 7 "1% Extra")
     (handle_text (text_update 7 "100% Rent") fresh).1.1).1.2
  = [MsgOnlyLeft 0].
Proof. vm_compute. reflexivity. Qed.

Example undo_then_nothing_to_undo :
  (undo (command_update 7)
     (undo (command_update 7)
        (handle_text (text_update 7 "30% Savings")
           (begin_strategy (command_update 7) fresh).1.1).1.1).1.1).1.2
  = [MsgNothingToUndo].
Proof. vm_compute. reflexivity. Qed.

Example status_after_cancel :
  (status_cmd (command_update 7)
     (cancel (command_update 7)
        (handle_text (text_update 7 "100% Rent") fresh).1.1).1.1).2
  = [MsgSummary NoCategories].
Proof. vm_compute. reflexivity. Qed.

Example zero_percent_is_out_of_range :
  (handle_text (text_update 7 "0% Nothing") fresh).1.2 = [MsgRange].
Proof. vm_compute. reflexivity. Qed.

(** ** The handlers, case by case *)

Section Handlers.
Variable chat_id : Z.
Variable w : world.

Lemma handle_text_unparsed raw :
  parse_entry raw = None ->
  handle_text (text_update chat_id raw) w = (w, [MsgNotUnderstood], STRATEGY_EDIT).
Proof. intros H. unfold handle_text; simpl. by rewrite H. Qed.

Lemma handle_text_out_of_range raw pct category :
  parse_entry raw = Some (pct, category) ->
  ¬ (0 < pct <= 100) ->
  handle_text (text_update chat_id raw) w = (w, [MsgRange], STRATEGY_EDIT).
Proof.
  intros H Hr. unfold handle_text; simpl. rewrite H.
  destruct (0 <? pct) eqn:E1, (pct <=? 100) eqn:E2; simpl; try done.
  apply Z.ltb_lt in E1. apply Z.leb_le in E2. lia.
Qed.

Lemma handle_text_over_capacity raw pct category :
  parse_entry raw = Some (pct, category) ->
  0 < pct <= 100 ->
  100 < total (current_plan w chat_id) + pct ->
  handle_text (text_update chat_id raw) w
    = (w, [MsgOnlyLeft (100 - total (current_plan w chat_id))], STRATEGY_EDIT).
Proof.
  intros H [Hr1 Hr2] Hc. unfold handle_text, current_plan in *; simpl. rewrite H.
  apply Z.ltb_lt in Hr1 as ->. apply Z.leb_le in Hr2 as E2. rewrite E2. simpl.
  destruct (user_data w !! chat_id) as [p|] eqn:E; simpl in *.
  - rewrite E. simpl. apply Z.ltb_lt in Hc as ->. done.
  - lia.
Qed.

Lemma handle_text_accepted raw pct category :
  parse_entry raw = Some (pct, category) ->
  0 < pct <= 100 ->
  total (current_plan w chat_id) + pct <= 100 ->
  let p := current_plan w chat_id in
  let p' := {| categories := categories p ++ [(category, pct)];
               total := total p + pct |} in
  let w' := save_user_data (with_user_data (<[chat_id := p']> (user_data w)) w) in
  let added := MsgAdded category pct (get_summary (user_data w') chat_id) in
  handle_text (text_update chat_id raw) w
    = if total p' =? 100 then (w', [added; MsgComplete], END)
      else (w', [added; MsgNext], STRATEGY_EDIT).
Proof.
  intros H [Hr1 Hr2] Hc. unfold handle_text, current_plan in *; simpl. rewrite H.
  apply Z.ltb_lt in Hr1 as ->. apply Z.leb_le in Hr2 as ->. simpl.
  destruct (user_data w !! chat_id) as [p|] eqn:E; simpl in *.
  - rewrite E. simpl. destruct (100 <? total p + pct) eqn:E3.
    { apply Z.ltb_lt in E3. lia. }
    reflexivity.
  - rewrite lookup_insert_eq. simpl.
    destruct (100 <? 0 + pct) eqn:E3. { apply Z.ltb_lt in E3. lia. }
    unfold with_user_data, save_user_data; simpl.
    rewrite !insert_insert_eq. reflexivity.
Qed.

End Handlers.

(** ** [list.pop] and the running total *)

Lemma pop_snoc {A : Type} (l : list A) (x : A) : pop (l ++ [x]) = Some (l, x).
Proof.
  induction l as [|y l IH]; simpl; [done|]. by rewrite IH.
Qed.

Lemma pop_None {A : Type} (l : list A) : pop l = None -> l = [].
Proof.
  destruct l as [|x r]; [done|]. simpl. by destruct (pop r) as [[? ?]|].
Qed.

Lemma pop_Some {A : Type} (l r : list A) (x : A) :
  pop l = Some (r, x) -> l = r ++ [x].
Proof.
  revert r. induction l as [|y l IH]; intros r; simpl; [done|].
  destruct (pop l) as [[r' z]|] eqn:E.
  - intros [= <- <-]. simpl. f_equal. by apply IH.
  - intros [= <- <-]. by rewrite (pop_None l E).
Qed.

Lemma sum_percents_snoc l e : sum_percents (l ++ [e]) = sum_percents l + e.2.
Proof.
  unfold sum_percents. induction l as [|x l IH]; simpl; lia.
Qed.

Lemma sum_percents_nonneg l :
  Forall (fun e : string * Z => 0 < e.2) l -> 0 <= sum_percents l.
Proof.
  unfold sum_percents. induction 1; simpl; lia.
Qed.

(** ** What each handler does to [user_data] *)

Section Effects.
Variable u : Update.
Variable w : world.

Lemma handle_text_effect :
  ((handle_text u w).1.1 = w ∧
   ∀ m, m ∈ (handle_text u w).1.2 -> is_failure m = true) ∨
  ∃ chat_id category pct,
    effective_chat u = Some chat_id ∧ 0 < pct <= 100 ∧
    total (current_plan w chat_id) + pct <= 100 ∧
    ¬ rejected (handle_text u w) ∧
    user_data (handle_text u w).1.1
      = <[chat_id := {| categories := categories (current_plan w chat_id)
                                         ++ [(category, pct)];
                        total := total (current_plan w chat_id) + pct |}]>
          (user_data w).
Proof.
  assert (Hone : ∀ r m, m ∈ [r] -> is_failure r = true -> is_failure m = true).
  { intros r m Hm Hr. apply list_elem_of_singleton in Hm. by subst m. }
  destruct u as [[chat_id|] [raw|]];
    try (left; split; [reflexivity | intros m Hm; by apply elem_of_nil in Hm]).
  change {| effective_chat := Some chat_id; message := Some raw |}
    with (text_update chat_id raw).
  destruct (parse_entry raw) as [[pct category]|] eqn:E.
  2: { left. rewrite handle_text_unparsed by done. split; [done|].
       intros m Hm. by apply (Hone _ _ Hm). }
  destruct (decide (0 < pct <= 100)) as [Hr|Hr].
  2: { left. rewrite (handle_text_out_of_range _ _ _ _ _ E Hr). split; [done|].
       intros m Hm. by apply (Hone _ _ Hm). }
  destruct (decide (100 < total (current_plan w chat_id) + pct)) as [Hc|Hc].
  { left. rewrite (handle_text_over_capacity _ _ _ _ _ E Hr Hc). split; [done|].
    intros m Hm. by apply (Hone _ _ Hm). }
  right. exists chat_id, category, pct.
  assert (Hle : total (current_plan w chat_id) + pct <= 100) by lia.
  pose proof (handle_text_accepted chat_id w raw pct category E Hr Hle) as Ha.
  cbv zeta in Ha. rewrite Ha.
  repeat split; try lia; try done.
  - intros (m & Hm & Hf).
    destruct (_ =? 100); simpl in Hm;
      rewrite !elem_of_cons, elem_of_nil in Hm;
      destruct Hm as [->|[->|[]]]; discriminate.
  - by destruct (_ =? 100).
Qed.

Lemma undo_effect :
  (undo u w = (w, [MsgNothingToUndo], STRATEGY_EDIT) ∧
   ∀ chat_id, effective_chat u = Some chat_id ->
     categories (current_plan w chat_id) = []) ∨
  (undo u w = (w, [], STRATEGY_EDIT) ∧ effective_chat u = None) ∨
  ∃ chat_id p rest category pct,
    effective_chat u = Some chat_id ∧
    user_data w !! chat_id = Some p ∧
    categories p = rest ++ [(category, pct)] ∧
    let p' := {| categories := rest; total := total p - pct |} in
    let w' := save_user_data (with_user_data (<[chat_id := p']> (user_data w)) w) in
    undo u w = (w', [MsgRemoved category pct (get_summary (user_data w') chat_id)],
                STRATEGY_EDIT).
Proof.
  unfold undo, current_plan. destruct (effective_chat u) as [chat_id|].
  2: { right; left. done. }
  destruct (user_data w !! chat_id) as [p|] eqn:E.
  2: { left. split; [done|]. intros ? [= <-]. by rewrite E. }
  destruct (pop (categories p)) as [[rest [category pct]]|] eqn:Ep.
  - right; right. exists chat_id, p, rest, category, pct.
    repeat split; try done. by apply pop_Some.
  - left. split; [done|]. intros ? [= <-]. rewrite E. simpl. by apply pop_None.
Qed.

End Effects.

(** ** The invariant of reachable plans *)

Lemma empty_plan_inv : plan_inv empty_plan.
Proof. repeat split; simpl; try lia. constructor. Qed.

Lemma current_plan_inv w chat_id :
  store_inv (user_data w) -> plan_inv (current_plan w chat_id).
Proof.
  intros H. unfold current_plan.
  destruct (user_data w !! chat_id) as [p|] eqn:E; simpl; eauto using empty_plan_inv.
Qed.

Lemma store_inv_insert ud k p :
  store_inv ud -> plan_inv p -> store_inv (<[k := p]> ud).
Proof.
  intros H Hp k' p'. rewrite lookup_insert. case_decide; [by intros [= <-]|]. apply H.
Qed.

Lemma store_inv_delete ud k : store_inv ud -> store_inv (delete k ud).
Proof.
  intros H k' p'. rewrite lookup_delete. case_decide; [done|]. apply H.
Qed.

Lemma plan_inv_append p category pct :
  plan_inv p -> 0 < pct -> total p + pct <= 100 ->
  plan_inv {| categories := categories p ++ [(category, pct)];
              total := total p + pct |}.
Proof.
  intros [[Hb Hs] Hall] Hpos Hle. repeat split; simpl; try lia.
  - rewrite sum_percents_snoc. simpl. lia.
  - apply Forall_app. split; [done|]. by repeat constructor.
Qed.

Lemma plan_inv_pop p rest category pct :
  plan_inv p -> categories p = rest ++ [(category, pct)] ->
  plan_inv {| categories := rest; total := total p - pct |}.
Proof.
  intros [[Hb Hs] Hall] Hc. rewrite Hc in Hs, Hall.
  rewrite sum_percents_snoc in Hs. simpl in Hs.
  apply Forall_app in Hall as [Hrest Hlast].
  rewrite Forall_singleton in Hlast. simpl in Hlast.
  pose proof (sum_percents_nonneg _ Hrest).
  repeat split; simpl; try lia. done.
Qed.

Lemma dispatch_store_inv ev w :
  store_inv (user_data w) -> store_inv (user_data (dispatch ev w)).
Proof.
  intros H. destruct ev as [u|u|u|u|u]; simpl.
  - unfold begin_strategy. destruct (effective_chat u); simpl; [|done].
    apply store_inv_insert; [done|apply empty_plan_inv].
  - destruct (handle_text_effect u w)
      as [[-> _]|(c & cat & pct & _ & Hr & Hc & _ & ->)]; [done|].
    apply store_inv_insert; [done|].
    apply plan_inv_append; [by apply current_plan_inv|lia|done].
  - destruct (undo_effect u w) as [[-> _]|[[-> _]|(c & p & rest & cat & pct & _ & Hp & Hc & ->)]];
      [done|done|]. simpl.
    apply store_inv_insert; [done|]. eapply plan_inv_pop; eauto.
  - unfold cancel. destruct (effective_chat u); simpl; [|done].
    by apply store_inv_delete.
  - unfold status_cmd. by destruct (effective_chat u).
Qed.

Lemma reachable_store_inv w : reachable w -> store_inv (user_data w).
Proof.
  induction 1 as [w Hw|ev w _ IH].
  - intros k p. rewrite Hw. by rewrite lookup_empty.
  - by apply dispatch_store_inv.
Qed.

(** C1.  Every plan of a world reached from an empty [user_data] through
    any sequence of strategy starts, text messages, undos, cancels and
    status queries has [0 <= total <= 100] and [total] equal to the sum of
    the percents of its entries. *)
Theorem reachable_plan_ok w chat_id p :
  reachable w ->
  user_data w !! chat_id = Some p ->
  0 <= total p <= 100 ∧ total p = sum_percents (categories p).
Proof.
  intros Hr Hp. by destruct (reachable_store_inv w Hr chat_id p Hp) as [? _].
Qed.

Lemma reachable_plan_ok_witness :
  0 <= total {| categories := [("Needs", 50)]; total := 50 |} <= 100 ∧
  total {| categories := [("Needs", 50)]; total := 50 |}
    = sum_percents (categories {| categories := [("Needs", 50)]; total := 50 |}).
Proof.
  apply (reachable_plan_ok
           (dispatch (EvUndo (command_update 7))
              (dispatch (EvText (text_update 7 "30% Savings"))
                 (dispatch (EvText (text_update 7 "50% Needs"))
                    (dispatch (EvStrategy (command_update 7)) fresh))))
           7).
  - repeat apply reach_step. by apply reach_fresh.
  - vm_compute. reflexivity.
Defined.

(** ** The capacity boundary *)

(** A world in which chat 7 has allocated 90 percent. *)
Lemma ninety_total :
  total (current_plan
           (with_user_data {[ 7 := {| categories := [("Needs", 90)]; total := 90 |} ]}
              fresh) 7) = 90.
Proof. reflexivity. Qed.

(** C2.  With [t < 100] the total of the plan of the chat and [pct] in
    [1,100] the parsed percent: when [t + pct > 100] the message is
    rejected with the remaining capacity [100 - t] and the world is the
    one before; when [pct = 100 - t] the entry is appended, the total is
    100, and the handler announces completion and ends the conversation. *)
Theorem capacity_boundary chat_id w raw pct category :
  parse_entry raw = Some (pct, category) ->
  1 <= pct <= 100 ->
  total (current_plan w chat_id) < 100 ->
  (100 < total (current_plan w chat_id) + pct ->
     handle_text (text_update chat_id raw) w
       = (w, [MsgOnlyLeft (100 - total (current_plan w chat_id))], STRATEGY_EDIT))
  ∧
  (pct = 100 - total (current_plan w chat_id) ->
     ∃ w' s,
       handle_text (text_update chat_id raw) w
         = (w', [MsgAdded category pct s; MsgComplete], END) ∧
       user_data w' !! chat_id
         = Some {| categories := categories (current_plan w chat_id) ++ [(category, pct)];
                   total := 100 |}).
Proof.
  intros Hparse Hr Ht. split.
  - intros Hc. apply (handle_text_over_capacity _ _ _ _ _ Hparse); lia.
  - intros Hp.
    assert (Hrange : 0 < pct <= 100) by lia.
    assert (Hle : total (current_plan w chat_id) + pct <= 100) by lia.
    pose proof (handle_text_accepted chat_id w raw pct category Hparse Hrange Hle) as Ha.
    cbv zeta in Ha. rewrite Ha. simpl.
    replace (total (current_plan w chat_id) + pct) with 100 by lia. simpl.
    eexists _, _. split; [reflexivity|]. simpl. by rewrite lookup_insert_eq.
Qed.

Lemma capacity_boundary_witness :
  handle_text (text_update 7 "20% Fun")
    (with_user_data {[ 7 := {| categories := [("Needs", 90)]; total := 90 |} ]} fresh)
  = (with_user_data {[ 7 := {| categories := [("Needs", 90)]; total := 90 |} ]} fresh,
     [MsgOnlyLeft 10], STRATEGY_EDIT)
  ∧ ∃ w' s,
      handle_text (text_update 7 "10% Fun")
        (with_user_data {[ 7 := {| categories := [("Needs", 90)]; total := 90 |} ]} fresh)
      = (w', [MsgAdded "Fun" 10 s; MsgComplete], END)
      ∧ user_data w' !! 7
        = Some {| categories := [("Needs", 90); ("Fun", 10)]; total := 100 |}.
Proof.
  split.
  - destruct (capacity_boundary 7
                (with_user_data
                   {[ 7 := {| categories := [("Needs", 90)]; total := 90 |} ]} fresh)
                "20% Fun" 20 "Fun") as [H _].
    + reflexivity.
    + lia.
    + rewrite ninety_total. lia.
    + apply H. rewrite ninety_total. lia.
  - destruct (capacity_boundary 7
                (with_user_data
                   {[ 7 := {| categories := [("Needs", 90)]; total := 90 |} ]} fresh)
                "10% Fun" 10 "Fun") as [_ H].
    + reflexivity.
    + lia.
    + rewrite ninety_total. lia.
    + apply H. rewrite ninety_total. lia.
Defined.

(** ** Rejected operations *)

(** C7.  When [handle_text] or [undo] answers with one of the rejection
    messages (not understood, out of range, only N percent left, nothing
    to undo), the world it returns is the world it was given: [user_data]
    is the same, the file is the same and [save_user_data] has not been
    called. *)
Theorem rejected_leaves_world u w :
  (rejected (handle_text u w) -> (handle_text u w).1.1 = w) ∧
  (rejected (undo u w) -> (undo u w).1.1 = w).
Proof.
  split.
  - intros Hrej.
    destruct (handle_text_effect u w) as [[H _]|(c & cat & pct & _ & _ & _ & Hn & _)];
      [done|by destruct Hn].
  - intros (m & Hm & Hf).
    destruct (undo_effect u w)
      as [[H _]|[[H _]|(c & p & rest & cat & pct & _ & _ & _ & H)]].
    + by rewrite H.
    + by rewrite H.
    + cbv zeta in H. rewrite H in Hm. simpl in Hm.
      rewrite list_elem_of_singleton in Hm. by subst m.
Qed.

Lemma rejected_leaves_world_witness :
  (handle_text (text_update 7 "hello") fresh).1.1 = fresh ∧
  (undo (command_update 7) fresh).1.1 = fresh.
Proof.
  split.
  - apply (proj1 (rejected_leaves_world (text_update 7 "hello") fresh)).
    exists MsgNotUnderstood. split; [vm_compute; by left | reflexivity].
  - apply (proj2 (rejected_leaves_world (command_update 7) fresh)).
    exists MsgNothingToUndo. split; [vm_compute; by left | reflexivity].
Defined.

(** ** Undo without a plan *)

(** C9.  [undo] for a chat that has no entry in [user_data] answers
    "nothing to undo" and returns the world unchanged: no plan is created
    for the chat, and nothing is saved.  The answer is the one given for
    a stored plan whose list of categories is empty. *)
Theorem undo_absent_session u chat_id w :
  effective_chat u = Some chat_id ->
  user_data w !! chat_id = None ->
  undo u w = (w, [MsgNothingToUndo], STRATEGY_EDIT) ∧
  user_data (undo u w).1.1 !! chat_id = None ∧
  saves (undo u w).1.1 = saves w ∧
  disk (undo u w).1.1 = disk w ∧
  ∀ w0 t, user_data w0 !! chat_id = Some {| categories := []; total := t |} ->
          undo u w0 = (w0, [MsgNothingToUndo], STRATEGY_EDIT).
Proof.
  intros Hu Hw.
  assert (H : undo u w = (w, [MsgNothingToUndo], STRATEGY_EDIT)).
  { unfold undo. by rewrite Hu, Hw. }
  rewrite H. simpl. repeat split; try done.
  intros w0 t H0. unfold undo. by rewrite Hu, H0.
Qed.

Lemma undo_absent_session_witness :
  undo (command_update 7) fresh = (fresh, [MsgNothingToUndo], STRATEGY_EDIT).
Proof.
  apply (undo_absent_session (command_update 7) 7 fresh); reflexivity.
Defined.

(** ** Cancel and status *)

(** C8.  [cancel] never answers with a rejection: for a chat it deletes
    the chat's entry of [user_data] whatever the state, which changes
    nothing when the chat has no entry; [status_cmd] returns the world it
    was given. *)
Theorem cancel_and_status u w :
  ¬ rejected (cancel u w) ∧
  (∀ chat_id, effective_chat u = Some chat_id ->
     ∃ w', cancel u w = (w', [MsgReset], END) ∧
           user_data w' = delete chat_id (user_data w) ∧
           user_data w' !! chat_id = None ∧
           (user_data w !! chat_id = None -> user_data w' = user_data w)) ∧
  (status_cmd u w).1 = w.
Proof.
  unfold cancel, status_cmd. destruct (effective_chat u) as [c|]; simpl.
  - repeat split.
    + intros (m & Hm & Hf). simpl in Hm.
      rewrite list_elem_of_singleton in Hm. by subst m.
    + intros ? [= <-]. eexists. split; [reflexivity|]. simpl.
      repeat split; [apply lookup_delete_eq|]. intros Hn. by apply delete_id.
  - repeat split; [|done].
    intros (m & Hm & _). simpl in Hm. by apply elem_of_nil in Hm.
Qed.

Lemma cancel_and_status_witness :
  ∃ w', cancel (command_update 7) fresh = (w', [MsgReset], END) ∧
        user_data w' = delete 7 (user_data fresh) ∧
        user_data w' !! 7 = None ∧
        (user_data fresh !! 7 = None -> user_data w' = user_data fresh).
Proof.
  destruct (cancel_and_status (command_update 7) fresh) as (_ & H & _).
  apply (H 7). reflexivity.
Defined.

(** ** Undo is last-in first-out *)

Lemma undo_last chat_id w p rest category pct :
  user_data w !! chat_id = Some p ->
  categories p = rest ++ [(category, pct)] ->
  ∃ w' s,
    undo (command_update chat_id) w = (w', [MsgRemoved category pct s], STRATEGY_EDIT) ∧
    user_data w'
      = <[chat_id := {| categories := rest; total := total p - pct |}]> (user_data w).
Proof.
  intros Hp Hc. unfold undo. simpl. rewrite Hp, Hc, pop_snoc.
  eexists _, _. split; reflexivity.
Qed.

Lemma adds_effect chat_id w texts w' p :
  adds chat_id w texts w' ->
  user_data w !! chat_id = Some p ->
  ∃ entries,
    length entries = length texts ∧
    user_data w'
      = <[chat_id := {| categories := categories p ++ entries;
                        total := total p + sum_percents entries |}]> (user_data w).
Proof.
  intros Ha. revert p.
  induction Ha as [w|w raw texts w1 w' category pct s rest c Hh _ IH]; intros p Hp.
  - exists []. split; [done|]. rewrite app_nil_r. simpl.
    rewrite Z.add_0_r. symmetry. apply insert_id. by destruct p.
  - destruct (handle_text_effect (text_update chat_id raw) w)
      as [Hsame|(c' & cat' & pct' & Hc' & _ & _ & _ & Hud)].
    { destruct Hsame as [_ Hfail]. rewrite Hh in Hfail.
      specialize (Hfail (MsgAdded category pct s) ltac:(by left)). discriminate. }
    simpl in Hc'. injection Hc' as <-.
    rewrite Hh in Hud. simpl in Hud.
    unfold current_plan in Hud. rewrite Hp in Hud. simpl in Hud.
    destruct (IH _ ltac:(rewrite Hud; apply lookup_insert_eq)) as (entries & Hlen & Hw').
    exists ((cat', pct') :: entries). split; [simpl; lia|].
    rewrite Hw', Hud, insert_insert_eq. simpl. f_equal. f_equal.
    + by rewrite <- app_assoc.
    + unfold sum_percents. simpl. lia.
Qed.

Lemma undo_n_S chat_id n w :
  undo_n chat_id (S n) w = undo_n chat_id n ((undo (command_update chat_id) w).1.1).
Proof.
  exact (Nat.iter_succ_r n (fun w0 => (undo (command_update chat_id) w0).1.1) w).
Qed.

Lemma undo_n_effect chat_id entries : ∀ w cats t,
  user_data w !! chat_id
    = Some {| categories := cats ++ entries; total := t + sum_percents entries |} ->
  user_data (undo_n chat_id (length entries) w)
    = <[chat_id := {| categories := cats; total := t |}]> (user_data w).
Proof.
  induction entries as [|[category pct] entries IH] using rev_ind; intros w cats t Hw.
  - simpl. rewrite app_nil_r in Hw. simpl in Hw. rewrite Z.add_0_r in Hw.
    symmetry. by apply insert_id.
  - rewrite length_app. simpl. rewrite Nat.add_1_r.
    rewrite undo_n_S.
    destruct (undo_last chat_id w _ (cats ++ entries) category pct Hw)
      as (w1 & s & Hu & Hud).
    { simpl. by rewrite app_assoc. }
    rewrite Hu. cbn [fst].
    rewrite (IH w1 cats t).
    + by rewrite Hud, insert_insert_eq.
    + rewrite Hud, lookup_insert_eq. simpl. f_equal. f_equal.
      rewrite sum_percents_snoc. simpl. lia.
Qed.

(** C6.  After [n] texts accepted as entries of a chat whose plan was [P],
    [n] undos give back the [user_data] of before, hence the plan [P];
    one undo removes the last entry of the list of categories, and no
    other, and subtracts its percent from the total. *)
Theorem undo_lifo chat_id w texts w' P :
  user_data w !! chat_id = Some P ->
  adds chat_id w texts w' ->
  user_data (undo_n chat_id (length texts) w') = user_data w ∧
  user_data (undo_n chat_id (length texts) w') !! chat_id = Some P ∧
  ∀ w0 p rest category pct,
    user_data w0 !! chat_id = Some p ->
    categories p = rest ++ [(category, pct)] ->
    ∃ w1 s,
      undo (command_update chat_id) w0
        = (w1, [MsgRemoved category pct s], STRATEGY_EDIT) ∧
      user_data w1
        = <[chat_id := {| categories := rest; total := total p - pct |}]> (user_data w0).
Proof.
  intros HP Ha.
  destruct (adds_effect chat_id w texts w' P Ha HP) as (entries & Hlen & Hw').
  assert (Hback : user_data (undo_n chat_id (length texts) w') = user_data w).
  { rewrite <- Hlen, (undo_n_effect chat_id entries w' (categories P) (total P)).
    - rewrite Hw', insert_insert_eq. apply insert_id. by destruct P.
    - by rewrite Hw', lookup_insert_eq. }
  split; [done|]. split; [by rewrite Hback|].
  intros w0 p rest category pct. apply undo_last.
Qed.

Lemma undo_lifo_witness :
  user_data
    (undo_n 7 2
       (handle_text (text_update 7 "30% Food")
          (handle_text (text_update 7 "40% Rent")
             (with_user_data {[ 7 := empty_plan ]} fresh)).1.1).1.1)
  = user_data (with_user_data {[ 7 := empty_plan ]} fresh).
Proof.
  refine (proj1 (undo_lifo 7 (with_user_data {[ 7 := empty_plan ]} fresh)
                   ["40% Rent"; "30% Food"] _ empty_plan _ _)).
  - vm_compute. reflexivity.
  - eapply adds_cons; [vm_compute; reflexivity|].
    eapply adds_cons; [vm_compute; reflexivity|].
    vm_compute. apply adds_nil.
Defined.

(** ** The search is not anchored *)

Lemma match_here_needs_digit c r :
  is_digit c = false -> match_here (String c r) = None.
Proof. intros H. unfold match_here, plus_cap. by rewrite H. Qed.

Lemma re_search_cons c r :
  re_search (String c r)
  = match match_here (String c r) with
    | Some m => Some m
    | None => re_search r
    end.
Proof. reflexivity. Qed.

Lemma re_search_skips_non_digits pre s :
  all_chars (fun c => negb (is_digit c)) pre = true ->
  re_search (pre +:+ s) = re_search s.
Proof.
  induction pre as [|c pre IH]; intros H; [done|].
  simpl in H. apply andb_prop in H as [Hc Hpre]. apply negb_true_iff in Hc.
  change (String c pre +:+ s) with (String c (pre +:+ s)).
  rewrite re_search_cons, match_here_needs_digit by done. by apply IH.
Qed.

(** ** Characters and stripping *)

Lemma is_space_to_upper c : is_space (to_upper c) = is_space c.
Proof. destruct c as [[] [] [] [] [] [] [] []]; reflexivity. Qed.

Lemma is_space_to_lower c : is_space (to_lower c) = is_space c.
Proof. destruct c as [[] [] [] [] [] [] [] []]; reflexivity. Qed.

Lemma newline_is_space c : is_space c = false -> not_newline c = true.
Proof. destruct c as [[] [] [] [] [] [] [] []]; try reflexivity; discriminate. Qed.

Lemma rstrip_cons c r :
  rstrip (String c r)
  = match rstrip r with
    | EmptyString => if is_space c then EmptyString else String c EmptyString
    | String a b => String c (String a b)
    end.
Proof. simpl. by destruct (rstrip r). Qed.

Lemma rstrip_idem s : rstrip (rstrip s) = rstrip s.
Proof.
  induction s as [|c r IH]; [done|].
  rewrite rstrip_cons. destruct (rstrip r) as [|a b] eqn:E.
  - destruct (is_space c) eqn:Ec; [done|]. simpl. by rewrite Ec.
  - rewrite rstrip_cons, IH. done.
Qed.

Lemma rstrip_fixed_tail c r : rstrip (String c r) = String c r -> rstrip r = r.
Proof.
  rewrite rstrip_cons. destruct (rstrip r) as [|a b] eqn:E.
  - destruct (is_space c); [done|]. by intros [= <-].
  - by intros [= <-].
Qed.

Lemma rstrip_fixed_space c r :
  rstrip (String c r) = String c r -> is_space c = true -> r <> EmptyString.
Proof.
  intros H Hc ->. simpl in H. by rewrite Hc in H.
Qed.

Lemma strip_fixed s : rstrip (strip s) = strip s.
Proof. apply rstrip_idem. Qed.

Lemma rstrip_solid s : starts_solid s = true -> starts_solid (rstrip s) = true.
Proof.
  destruct s as [|c r]; [done|]. rewrite rstrip_cons. simpl. intros Hc.
  destruct (rstrip r); simpl; [|done].
  apply negb_true_iff in Hc. by rewrite Hc; simpl; rewrite Hc.
Qed.

Lemma lstrip_solid s : starts_solid s = true -> lstrip s = s.
Proof.
  destruct s as [|c r]; [done|]. simpl. intros Hc%negb_true_iff. by rewrite Hc.
Qed.

Lemma rstrip_map_lower r : rstrip (map_str to_lower r) = map_str to_lower (rstrip r).
Proof.
  induction r as [|c r IH]; [done|].
  change (map_str to_lower (String c r)) with (String (to_lower c) (map_str to_lower r)).
  rewrite !rstrip_cons, IH. destruct (rstrip r) as [|a b]; simpl.
  - rewrite is_space_to_lower. by destruct (is_space c).
  - done.
Qed.

Lemma capitalize_trimmed s :
  starts_solid s = true -> rstrip s = s ->
  strip (capitalize s) = capitalize s ∧ starts_solid (capitalize s) = true.
Proof.
  destruct s as [|c r]; [done|]. simpl starts_solid. intros Hc%negb_true_iff Hs.
  assert (Hsolid : starts_solid (capitalize (String c r)) = true).
  { simpl. by rewrite is_space_to_upper, Hc. }
  split; [|done]. unfold strip. rewrite lstrip_solid by done.
  unfold capitalize. rewrite rstrip_cons, rstrip_map_lower.
  rewrite (rstrip_fixed_tail _ _ Hs), is_space_to_upper, Hc.
  by destruct r.
Qed.

(** ** The label group never begins with white space

    On a subject without trailing white space, which is what
    [text.strip()] gives, the last [\s*] either stops in front of a
    character that is not white space, where [(.+)] then matches, or runs
    to the end of the subject, where every alternative that is tried next
    resumes on a character that is not white space. *)

Section Label.
Variable g1 : string.

Lemma star_cap_total {A} p s (f : string -> A) :
  star_cap p s (fun g _ => Some (f g)) = Some (f (take_while p s)).
Proof.
  revert f. induction s as [|c r IH]; intros f; simpl; [done|].
  destruct (p c); [|done]. by rewrite (IH (fun g => f (String c g))).
Qed.

Lemma label_tail_solid s :
  rstrip s = s -> s <> EmptyString ->
  ∃ g2, label_tail g1 s = Some (g1, g2) ∧ starts_solid g2 = true.
Proof.
  unfold label_tail, star.
  induction s as [|c r IH]; intros Hs Hne; [done|]. simpl.
  destruct (is_space c) eqn:Ec.
  - destruct (IH (rstrip_fixed_tail _ _ Hs) (rstrip_fixed_space _ _ Hs Ec))
      as (g2 & -> & Hg2). eauto.
  - rewrite (newline_is_space _ Ec).
    rewrite (star_cap_total not_newline r (fun g => (g1, String c g))).
    eexists. split; [done|]. simpl. by rewrite Ec.
Qed.

Lemma label_tail_safe s : rstrip s = s -> solid_label (label_tail g1 s).
Proof.
  intros Hs. destruct s as [|c r] eqn:E; [done|]. rewrite <- E in *.
  destruct (label_tail_solid s Hs) as (g2 & -> & Hg2); [by subst|done].
Qed.

End Label.

Section Safe.

Lemma star_cap_safe p s (k : string -> string -> option (string * string)) :
  rstrip s = s ->
  (∀ g rest, rstrip rest = rest -> solid_label (k g rest)) ->
  solid_label (star_cap p s k).
Proof.
  revert k. induction s as [|c r IH]; intros k Hs Hk; simpl.
  - by apply Hk.
  - destruct (p c); [|by apply Hk].
    pose proof (IH (fun g rest => k (String c g) rest)
                  (rstrip_fixed_tail _ _ Hs) (fun g rest => Hk (String c g) rest)) as H.
    destruct (star_cap p r _); [done|]. by apply Hk.
Qed.

Lemma plus_cap_safe p s (k : string -> string -> option (string * string)) :
  rstrip s = s ->
  (∀ g rest, rstrip rest = rest -> solid_label (k g rest)) ->
  solid_label (plus_cap p s k).
Proof.
  intros Hs Hk. destruct s as [|c r]; simpl; [done|].
  destruct (p c); [|done].
  apply star_cap_safe; [by apply (rstrip_fixed_tail c)|].
  intros g rest. apply Hk.
Qed.

Lemma star_safe p s (k : string -> option (string * string)) :
  rstrip s = s ->
  (∀ rest, rstrip rest = rest -> solid_label (k rest)) ->
  solid_label (star p s k).
Proof. intros Hs Hk. apply star_cap_safe; [done|]. intros _ rest. apply Hk. Qed.

Lemma lit_safe w s (k : string -> option (string * string)) :
  rstrip s = s ->
  (∀ rest, rstrip rest = rest -> solid_label (k rest)) ->
  solid_label (lit w s k).
Proof.
  revert s. induction w as [|a w IH]; intros s Hs Hk; simpl; [by apply Hk|].
  destruct s as [|c r]; [done|].
  destruct (Ascii.eqb _ _); [|done].
  apply IH; [by apply (rstrip_fixed_tail c)|done].
Qed.

Lemma alt_safe (m1 m2 : string -> (string -> option (string * string)) -> _) s k :
  solid_label (m1 s k) -> solid_label (m2 s k) -> solid_label (alt m1 m2 s k).
Proof. unfold alt. by destruct (m1 s k). Qed.

Lemma opt_safe (m : string -> (string -> option (string * string)) -> _) s k :
  solid_label (m s k) -> solid_label (k s) -> solid_label (opt m s k).
Proof. unfold opt. by destruct (m s k). Qed.

Lemma match_here_safe s : rstrip s = s -> solid_label (match_here s).
Proof.
  intros Hs. unfold match_here.
  apply plus_cap_safe; [done|]. intros g1 s1 H1.
  apply star_safe; [done|]. intros s2 H2.
  assert (Hrest : ∀ s3, rstrip s3 = s3 ->
            solid_label
              (star is_space s3 (fun s4 =>
               opt (alt (lit "for") (alt (lit "on") (lit "to"))) s4 (fun s5 =>
               label_tail g1 s5)))).
  { intros s3 H3. apply star_safe; [done|]. intros s4 H4.
    assert (Hk : ∀ rest, rstrip rest = rest -> solid_label (label_tail g1 rest))
      by (intros; by apply label_tail_safe).
    apply opt_safe; [|by apply Hk].
    repeat apply alt_safe; by apply lit_safe. }
  apply opt_safe; [|by apply Hrest].
  apply lit_safe; [done|]. apply Hrest.
Qed.

Lemma re_search_safe s : rstrip s = s -> solid_label (re_search s).
Proof.
  induction s as [|c r IH]; intros Hs.
  - done.
  - rewrite re_search_cons. pose proof (match_here_safe _ Hs) as H.
    destruct (match_here (String c r)); [done|].
    apply IH. by apply (rstrip_fixed_tail c).
Qed.

End Safe.

(** ** The connector has no word boundary *)

Lemma label_tail_line g1 c r :
  is_space c = false ->
  label_tail g1 (String c r) = Some (g1, String c (take_while not_newline r)).
Proof.
  intros Hc. unfold label_tail, star. simpl.
  rewrite Hc, (newline_is_space _ Hc).
  by rewrite (star_cap_total not_newline r (fun g => (g1, String c g))).
Qed.

Lemma connector_then_label t m :
  label_tail "50" t = Some m -> match_here ("50 to" +:+ t) = Some m.
Proof.
  intros H. cbv in H |- *. by rewrite H.
Qed.

Lemma connector_is_eaten tail :
  starts_solid tail = true ->
  re_search ("50 to" +:+ tail) = Some ("50", take_while not_newline tail).
Proof.
  destruct tail as [|c r]; [done|]. simpl starts_solid. intros Hc%negb_true_iff.
  change ("50 to" +:+ String c r) with (String "5" ("0 to" +:+ String c r)).
  rewrite re_search_cons.
  change (String "5" ("0 to" +:+ String c r)) with ("50 to" +:+ String c r).
  rewrite (connector_then_label _ _ (label_tail_line "50" c r Hc)).
  simpl. by rewrite (newline_is_space _ Hc).
Qed.

(** C10.  The search starts at any position and the connector is
    matched without a word boundary.  On ASCII text: whatever stands in
    front of the first digit is skipped, so ["abc 50% Needs"] is read as
    50 for ["Needs"]; and a category that begins with the letters of a
    connector loses them, so ["50 total"] is read as 50 for ["Tal"]. *)
Theorem search_is_unanchored :
  (∀ pre s, all_chars is_ascii (pre +:+ s) = true ->
            all_chars (fun c => negb (is_digit c)) pre = true ->
            re_search (pre +:+ s) = re_search s) ∧
  (∀ tail, all_chars is_ascii tail = true ->
           starts_solid tail = true ->
           re_search ("50 to" +:+ tail) = Some ("50", take_while not_newline tail)) ∧
  parse_entry "abc 50% Needs" = Some (50, "Needs") ∧
  parse_entry "50 total" = Some (50, "Tal").
Proof.
  split; [intros pre s _; apply re_search_skips_non_digits|].
  split; [intros tail _; apply connector_is_eaten|]. split; reflexivity.
Qed.

Lemma search_is_unanchored_witness :
  re_search ("abc " +:+ "50% Needs") = re_search "50% Needs" ∧
  re_search ("50 to" +:+ "matoes") = Some ("50", take_while not_newline "matoes").
Proof.
  split.
  - apply (proj1 search_is_unanchored "abc " "50% Needs"); reflexivity.
  - apply (proj1 (proj2 search_is_unanchored) "matoes"); reflexivity.
Defined.

(** ** The stored label *)

(** The label ["fun money"] is stored with a capital first letter only,
    where title case would give ["Fun Money"]. *)
Lemma label_not_title_cased :
  parse_entry "30% fun money" = Some (30, "Fun money") ∧
  re_search (strip "30% fun money") = Some ("30", "fun money") ∧
  spec_title_case (strip "fun money") = "Fun Money" ∧
  "Fun money" <> spec_title_case (strip "fun money").
Proof. repeat split; try reflexivity. discriminate. Qed.

(** C5, amended.  For every message of ASCII characters that parses,
    the stored category is the text of the second group, stripped of
    surrounding white space, with its first character upper-cased and
    every other character lower-cased; it is not empty and carries no
    surrounding white space itself. *)
Theorem category_is_capitalized raw pct category :
  all_chars is_ascii raw = true ->
  parse_entry raw = Some (pct, category) ->
  ∃ g1 label c rest,
    re_search (strip raw) = Some (g1, label) ∧
    strip label = String c rest ∧
    is_space c = false ∧
    category = String (to_upper c) (map_str to_lower rest) ∧
    strip category = category.
Proof.
  unfold parse_entry. intros _ H.
  pose proof (re_search_safe (strip raw) (strip_fixed raw)) as Hsafe.
  destruct (re_search (strip raw)) as [[g1 label]|]; [|done].
  injection H as <- <-. simpl in Hsafe.
  assert (Hsolid : starts_solid (strip label) = true).
  { unfold strip. rewrite lstrip_solid by done. by apply rstrip_solid. }
  destruct (capitalize_trimmed (strip label) Hsolid (strip_fixed label)) as [Htrim _].
  destruct (strip label) as [|c rest] eqn:E; [done|].
  exists g1, label, c, rest. simpl in Hsolid. apply negb_true_iff in Hsolid.
  repeat split; done.
Qed.

Lemma category_is_capitalized_witness :
  ∃ g1 label c rest,
    re_search (strip "30% fun money") = Some (g1, label) ∧
    strip label = String c rest ∧
    is_space c = false ∧
    "Fun money" = String (to_upper c) (map_str to_lower rest) ∧
    strip "Fun money" = "Fun money".
Proof.
  apply (category_is_capitalized "30% fun money" 30 "Fun money"); reflexivity.
Defined.

(** ** Integer keys survive [str] and [int] *)

Lemma digits_are_not_space c : is_digit c = true -> is_c_space c = false.
Proof. destruct c as [[] [] [] [] [] [] [] []]; try reflexivity; discriminate. Qed.

Lemma lskip_digits s : all_chars is_digit s = true -> lskip s = s.
Proof.
  destruct s as [|c r]; [done|]. simpl. intros [Hc _]%andb_prop.
  by rewrite (digits_are_not_space _ Hc).
Qed.

Lemma rskip_digits s : all_chars is_digit s = true -> rskip s = s.
Proof.
  induction s as [|c r IH]; [done|]. simpl. intros [Hc Hr]%andb_prop.
  rewrite (IH Hr), (digits_are_not_space _ Hc). by destruct r.
Qed.

Lemma string_of_uint_digits d : all_chars is_digit (NilEmpty.string_of_uint d) = true.
Proof. induction d; simpl; done. Qed.

Lemma int_body_numeral d : ∀ acc prev,
  (d <> Decimal.Nil ∨ prev = true) ->
  int_body acc prev (NilEmpty.string_of_uint d)
  = Some (digits_value_from acc (NilEmpty.string_of_uint d)).
Proof.
  induction d; intros acc prev H; simpl;
    try (apply IHd; by right).
  destruct H as [H| ->]; done.
Qed.

Lemma digits_value_revapp d : ∀ d',
  Z.of_N (DecimalPos.Unsigned.of_lu (Decimal.revapp d d'))
  = digits_value_from (Z.of_N (DecimalPos.Unsigned.of_lu d'))
      (NilEmpty.string_of_uint d).
Proof.
  induction d; intros d'; simpl Decimal.revapp; simpl NilEmpty.string_of_uint;
    [done|..];
    rewrite IHd; simpl digits_value_from; f_equal;
    rewrite DecimalPos.Unsigned.of_lu_eqn; simpl DecimalPos.Unsigned.hd;
    simpl DecimalPos.Unsigned.tl; unfold digit_val; simpl N_of_ascii; lia.
Qed.

Lemma digits_value_numeral d :
  digits_value (NilEmpty.string_of_uint d) = Z.of_N (Pos.of_uint d).
Proof.
  rewrite DecimalPos.Unsigned.of_uint_alt. unfold Decimal.rev.
  by rewrite digits_value_revapp.
Qed.

Lemma py_int_digits s :
  s <> EmptyString -> all_chars is_digit s = true ->
  py_int s = int_body 0 false s.
Proof.
  intros Hne Hd. unfold py_int. rewrite lskip_digits, rskip_digits by done.
  destruct s as [|c r]; [done|]. simpl in Hd. apply andb_prop in Hd as [Hc _].
  destruct c as [[] [] [] [] [] [] [] []]; try reflexivity; discriminate.
Qed.

Lemma string_of_uint_nonnil d :
  d <> Decimal.Nil ->
  NilZero.string_of_uint d = NilEmpty.string_of_uint d ∧
  NilEmpty.string_of_uint d <> EmptyString.
Proof. by destruct d. Qed.

Lemma py_int_numeral d :
  d <> Decimal.Nil ->
  py_int (NilZero.string_of_uint d) = Some (Z.of_N (Pos.of_uint d)).
Proof.
  intros Hd. destruct (string_of_uint_nonnil d Hd) as [-> Hne].
  rewrite py_int_digits by (done || apply string_of_uint_digits).
  rewrite int_body_numeral by (by left).
  by rewrite <- digits_value_numeral.
Qed.

Lemma py_int_positive p : py_int (py_str (Z.pos p)) = Some (Z.pos p).
Proof.
  unfold py_str. simpl Z.to_int. simpl NilZero.string_of_int.
  rewrite py_int_numeral by apply DecimalPos.Unsigned.to_uint_nonnil.
  by rewrite DecimalPos.Unsigned.of_to.
Qed.

Lemma py_int_negative p : py_int (py_str (Z.neg p)) = Some (Z.neg p).
Proof.
  unfold py_str. simpl Z.to_int. simpl NilZero.string_of_int.
  pose proof (DecimalPos.Unsigned.to_uint_nonnil p) as Hnil.
  destruct (string_of_uint_nonnil _ Hnil) as [-> Hne].
  unfold py_int. simpl lskip.
  assert (Hr : rskip (String "-" (NilEmpty.string_of_uint (Pos.to_uint p)))
               = String "-" (NilEmpty.string_of_uint (Pos.to_uint p))).
  { simpl. rewrite rskip_digits by apply string_of_uint_digits.
    by destruct (NilEmpty.string_of_uint (Pos.to_uint p)). }
  rewrite Hr. rewrite int_body_numeral by (by left).
  change (digits_value_from 0) with digits_value.
  by rewrite digits_value_numeral, DecimalPos.Unsigned.of_to.
Qed.

Lemma py_int_py_str k : py_int (py_str k) = Some k.
Proof.
  destruct k as [|p|p]; [reflexivity|apply py_int_positive|apply py_int_negative].
Qed.

(** ** Save, then load *)

Lemma int_keys_serializable (l : list (Z * plan)) : ∀ acc,
  NoDup l.*1 ->
  int_keys ((fun kv => (py_str kv.1, plan_to_json kv.2)) <$> l) acc
  = inr ((plan_to_json <$> (list_to_map l : gmap Z plan)) ∪ acc).
Proof.
  induction l as [|[k p] l IH]; intros acc Hnd; simpl.
  - by rewrite fmap_empty, (left_id_L ∅ (∪)).
  - apply NoDup_cons in Hnd as [Hk Hnd]. rewrite py_int_py_str, IH by done.
    f_equal. rewrite fmap_insert, <- insert_union_l. symmetry.
    apply insert_union_r. rewrite lookup_fmap.
    by rewrite (not_elem_of_list_to_map_1 _ _ Hk).
Qed.

Lemma load_after_save ud :
  load_user_data (Doc (JObj (serializable ud))) = inr (plan_to_json <$> ud).
Proof.
  simpl. unfold serializable.
  rewrite int_keys_serializable by apply NoDup_fst_map_to_list.
  by rewrite list_to_map_to_list, (right_id_L ∅ (∪)).
Qed.

Lemma mapM_entries l : mapM json_to_entry (entry_to_json <$> l) = Some l.
Proof.
  induction l as [|[c n] l IH]; [done|].
  rewrite fmap_cons. simpl. rewrite IH. done.
Qed.

Lemma json_to_plan_to_json p : json_to_plan (plan_to_json p) = Some p.
Proof.
  destruct p as [cats t]. simpl. by rewrite mapM_entries.
Qed.

(** C3.  When the write succeeds, loading what [save_user_data] wrote
    gives a dictionary with the keys of [user_data]; under each key it
    holds the record of the plan, in which the handlers read the
    categories of the plan in their order and its total. *)
Theorem save_load_roundtrip w :
  disk_ok w = true ->
  ∃ loaded,
    load_user_data (disk (save_user_data w)) = inr loaded ∧
    dom loaded = dom (user_data w) ∧
    ∀ chat_id, loaded !! chat_id ≫= json_to_plan = user_data w !! chat_id.
Proof.
  intros Hok. exists (plan_to_json <$> user_data w).
  unfold save_user_data. simpl. rewrite Hok.
  split; [apply load_after_save|]. split; [apply dom_fmap_L|].
  intros chat_id. rewrite lookup_fmap.
  destruct (user_data w !! chat_id) as [p|]; simpl; [|done].
  apply json_to_plan_to_json.
Qed.

Lemma save_load_roundtrip_witness :
  ∃ loaded,
    load_user_data
      (disk (save_user_data
               (with_user_data
                  {[ 7 := {| categories := [("Needs", 50); ("Fun", 20)]; total := 70 |};
                     -3 := empty_plan ]} fresh))) = inr loaded ∧
    dom loaded = dom (user_data
                        (with_user_data
                           {[ 7 := {| categories := [("Needs", 50); ("Fun", 20)];
                                      total := 70 |};
                              -3 := empty_plan ]} fresh)) ∧
    ∀ chat_id,
      loaded !! chat_id ≫= json_to_plan
      = user_data (with_user_data
                     {[ 7 := {| categories := [("Needs", 50); ("Fun", 20)];
                                total := 70 |};
                        -3 := empty_plan ]} fresh) !! chat_id.
Proof.
  apply (save_load_roundtrip
           (with_user_data
              {[ 7 := {| categories := [("Needs", 50); ("Fun", 20)]; total := 70 |};
                 -3 := empty_plan ]} fresh)).
  reflexivity.
Defined.

(** ** Loading other documents *)

Lemma int_keys_ok members : ∀ acc,
  Forall (fun kv : string * json => is_Some (py_int kv.1)) members ->
  ∃ m, int_keys members acc = inr m ∧
       (∀ k v, (k, v) ∈ members -> ∃ n, py_int k = Some n ∧ is_Some (m !! n)) ∧
       (∀ n, is_Some (acc !! n) -> is_Some (m !! n)) ∧
       (∀ n v, m !! n = Some v ->
               acc !! n = Some v ∨ ∃ k, py_int k = Some n ∧ (k, v) ∈ members).
Proof.
  induction members as [|[k v] members IH]; intros acc Hall.
  - exists acc. simpl. repeat split; try done.
    + intros ? ? H. by apply elem_of_nil in H.
    + by left.
  - apply Forall_cons in Hall as [[n Hn] Hall]. simpl in Hn. simpl. rewrite Hn.
    destruct (IH (<[n := v]> acc) Hall) as (m & -> & Hin & Hacc & Hfrom).
    exists m. repeat split; [|intros n' H'|intros n' v' H'].
    + intros k' v' [[= -> ->]|H']%elem_of_cons.
      * exists n. split; [done|]. apply Hacc. rewrite lookup_insert_eq. eauto.
      * by apply (Hin k' v').
    + apply Hacc. rewrite lookup_insert. case_decide; eauto.
    + destruct (Hfrom _ _ H') as [Hi|(k' & Hk' & Hm)].
      * rewrite lookup_insert in Hi. case_decide as Hd.
        -- injection Hi as <-. subst n'. right. exists k. split; [done|]. by left.
        -- by left.
      * right. exists k'. split; [done|]. by right.
Qed.








(** * Further properties of the handlers *)

(** ** Chats do not see each other *)

Lemma dispatch_frame ev w k :
  event_chat ev <> Some k ->
  user_data (dispatch ev w) !! k = user_data w !! k.
Proof.
  intros Hk. destruct ev as [u|u|u|u|u]; simpl in *.
  - unfold begin_strategy. destruct (effective_chat u) as [c|]; simpl; [|done].
    apply lookup_insert_ne. congruence.
  - destruct (handle_text_effect u w) as [[-> _]|(c & cat & pct & Hc & _ & _ & _ & ->)];
      [done|].
    apply lookup_insert_ne. congruence.
  - destruct (undo_effect u w)
      as [[-> _]|[[-> _]|(c & p & rest & cat & pct & Hc & _ & _ & ->)]]; [done|done|].
    simpl. apply lookup_insert_ne. congruence.
  - unfold cancel. destruct (effective_chat u) as [c|]; simpl; [|done].
    apply lookup_delete_ne. congruence.
  - unfold status_cmd. by destruct (effective_chat u).
Qed.

(** X1.  Whatever the list of events, the plan of a chat that none of
    them comes from is the one it was: handlers touch the entry of
    [user_data] under their own chat and no other. *)
Theorem other_chats_untouched evs w k :
  Forall (fun ev => event_chat ev <> Some k) evs ->
  user_data (run evs w) !! k = user_data w !! k.
Proof.
  revert w. induction evs as [|ev evs IH]; intros w Hall; [done|].
  apply Forall_cons in Hall as [Hev Hall].
  change (run (ev :: evs) w) with (run evs (dispatch ev w)).
  rewrite (IH _ Hall). by apply dispatch_frame.
Qed.

Lemma other_chats_untouched_witness :
  user_data
    (run [EvText (text_update 7 "60% Rent"); EvUndo (command_update 7);
          EvCancel (command_update 8)]
       (with_user_data {[ 9 := {| categories := [("Needs", 90)]; total := 90 |} ]} fresh))
    !! 9
  = user_data
      (with_user_data {[ 9 := {| categories := [("Needs", 90)]; total := 90 |} ]} fresh)
      !! 9.
Proof.
  apply (other_chats_untouched
           [EvText (text_update 7 "60% Rent"); EvUndo (command_update 7);
            EvCancel (command_update 8)]
           (with_user_data {[ 9 := {| categories := [("Needs", 90)]; total := 90 |} ]}
              fresh) 9).
  repeat constructor; simpl; discriminate.
Defined.

(** ** Mutations and saves *)

Lemma handle_text_shape u w :
  (handle_text u w).1.1 = w ∨
  ∃ ud', (handle_text u w).1.1 = save_user_data (with_user_data ud' w).
Proof.
  destruct u as [[chat_id|] [raw|]]; try (by left).
  change {| effective_chat := Some chat_id; message := Some raw |}
    with (text_update chat_id raw).
  destruct (parse_entry raw) as [[pct category]|] eqn:E.
  2: { left. by rewrite handle_text_unparsed. }
  destruct (decide (0 < pct <= 100)) as [Hr|Hr].
  2: { left. by rewrite (handle_text_out_of_range _ _ _ _ _ E Hr). }
  destruct (decide (100 < total (current_plan w chat_id) + pct)) as [Hc|Hc].
  { left. by rewrite (handle_text_over_capacity _ _ _ _ _ E Hr Hc). }
  right.
  assert (Hle : total (current_plan w chat_id) + pct <= 100) by lia.
  pose proof (handle_text_accepted chat_id w raw pct category E Hr Hle) as Ha.
  cbv zeta in Ha. rewrite Ha. eexists. by destruct (_ =? 100).
Qed.

Lemma dispatch_shape ev w :
  dispatch ev w = w ∨ ∃ ud', dispatch ev w = save_user_data (with_user_data ud' w).
Proof.
  destruct ev as [u|u|u|u|u]; simpl.
  - unfold begin_strategy. destruct (effective_chat u); simpl; eauto.
  - apply handle_text_shape.
  - destruct (undo_effect u w)
      as [[-> _]|[[-> _]|(c & p & rest & cat & pct & _ & _ & _ & ->)]]; simpl; eauto.
  - unfold cancel. destruct (effective_chat u); simpl; eauto.
  - unfold status_cmd. destruct (effective_chat u); simpl; eauto.
Qed.

(** X2.  A handler either returns the state it was given, file and
    number of saves included, or it has called [save_user_data] exactly
    once, after its change of [user_data]: the file then holds the
    snapshot of the new [user_data] when the write succeeds and its
    previous content when the write fails. *)
Theorem mutation_is_saved_once ev w :
  dispatch ev w = w ∨
  (saves (dispatch ev w) = S (saves w) ∧
   disk_ok (dispatch ev w) = disk_ok w ∧
   disk (dispatch ev w)
   = if disk_ok w then Doc (JObj (serializable (user_data (dispatch ev w))))
     else disk w).
Proof.
  destruct (dispatch_shape ev w) as [H|[ud' ->]]; [by left|right]. done.
Qed.

Lemma dispatch_synced ev w :
  disk_ok w = true -> synced w ->
  disk_ok (dispatch ev w) = true ∧ synced (dispatch ev w).
Proof.
  intros Hok Hs. destruct (dispatch_shape ev w) as [->|[ud' ->]]; [done|].
  split; [done|]. unfold synced, save_user_data. simpl. rewrite Hok.
  apply load_after_save.
Qed.

(** X3.  When the writes succeed and the file agrees with [user_data] at
    the start, as it does in a process started without a data file, then
    after any list of events the file still agrees with [user_data]:
    [load_user_data] returns the record of every plan in memory under
    its chat, and nothing else. *)
Theorem file_follows_memory evs w :
  disk_ok w = true -> synced w ->
  load_user_data (disk (run evs w)) = inr (plan_to_json <$> user_data (run evs w)).
Proof.
  revert w. induction evs as [|ev evs IH]; intros w Hok Hs; [done|].
  change (run (ev :: evs) w) with (run evs (dispatch ev w)).
  destruct (dispatch_synced ev w Hok Hs) as [Hok' Hs']. by apply IH.
Qed.

Lemma file_follows_memory_witness :
  load_user_data
    (disk (run [EvText (text_update 7 "60% Rent"); EvText (text_update 8 "100% Fun");
                EvUndo (command_update 7); EvText (text_update 7 "5 on tea")] fresh))
  = inr (plan_to_json <$>
         user_data
           (run [EvText (text_update 7 "60% Rent"); EvText (text_update 8 "100% Fun");
                 EvUndo (command_update 7); EvText (text_update 7 "5 on tea")] fresh)).
Proof.
  apply (file_follows_memory
           [EvText (text_update 7 "60% Rent"); EvText (text_update 8 "100% Fun");
            EvUndo (command_update 7); EvText (text_update 7 "5 on tea")] fresh).
  - reflexivity.
  - reflexivity.
Defined.

(** ** The file is never read by a handler *)

Lemma handle_text_memory_only u w1 w2 :
  user_data w1 = user_data w2 ->
  (handle_text u w1).1.2 = (handle_text u w2).1.2 ∧
  (handle_text u w1).2 = (handle_text u w2).2 ∧
  user_data (handle_text u w1).1.1 = user_data (handle_text u w2).1.1.
Proof.
  destruct w1 as [ud d1 ok1 n1], w2 as [ud2 d2 ok2 n2]. simpl. intros <-.
  unfold handle_text. simpl.
  destruct (effective_chat u) as [c|]; [|done].
  destruct (message u) as [raw|]; [|done].
  destruct (parse_entry raw) as [[pct cat]|]; [|done].
  destruct (negb _); [done|].
  destruct (ud !! c) as [p|] eqn:E; simpl.
  - rewrite E. simpl. destruct (100 <? _); [done|]. by destruct (_ =? 100).
  - rewrite !lookup_insert_eq. simpl. destruct (100 <? _); [done|].
    by destruct (_ =? 100).
Qed.

Lemma undo_memory_only u w1 w2 :
  user_data w1 = user_data w2 ->
  (undo u w1).1.2 = (undo u w2).1.2 ∧
  user_data (undo u w1).1.1 = user_data (undo u w2).1.1.
Proof.
  destruct w1 as [ud d1 ok1 n1], w2 as [ud2 d2 ok2 n2]. simpl. intros <-.
  unfold undo. simpl. destruct (effective_chat u) as [c|]; [|done].
  destruct (ud !! c) as [p|]; [|done].
  by destruct (pop (categories p)) as [[rest [cat pct]]|].
Qed.

(** X4.  The messages a handler produces and the [user_data] it leaves
    depend on [user_data] alone: two states with the same [user_data],
    whatever their files and whether or not their writes succeed, get
    the same replies and the same new [user_data].  A failed write is
    therefore never reported to the user. *)
Theorem replies_ignore_the_file ev w1 w2 :
  user_data w1 = user_data w2 ->
  replies ev w1 = replies ev w2 ∧
  user_data (dispatch ev w1) = user_data (dispatch ev w2).
Proof.
  intros H. destruct ev as [u|u|u|u|u]; simpl.
  - unfold begin_strategy. destruct (effective_chat u); simpl; by rewrite ?H.
  - by destruct (handle_text_memory_only u w1 w2 H) as (? & _ & ?).
  - by apply undo_memory_only.
  - unfold cancel. destruct (effective_chat u); simpl; by rewrite ?H.
  - unfold status_cmd. destruct (effective_chat u); simpl; by rewrite ?H.
Qed.

Lemma replies_ignore_the_file_witness :
  replies (EvText (text_update 7 "60% Rent")) fresh
  = replies (EvText (text_update 7 "60% Rent"))
      {| user_data := ∅; disk := Corrupt; disk_ok := false; saves := 3 |} ∧
  user_data (dispatch (EvText (text_update 7 "60% Rent")) fresh)
  = user_data (dispatch (EvText (text_update 7 "60% Rent"))
                 {| user_data := ∅; disk := Corrupt; disk_ok := false; saves := 3 |}).
Proof.
  apply (replies_ignore_the_file (EvText (text_update 7 "60% Rent")) fresh
           {| user_data := ∅; disk := Corrupt; disk_ok := false; saves := 3 |}).
  reflexivity.
Defined.

(** ** Which messages are understood *)

Lemma star_cap_resumes {A} p s (k : string -> string -> option A) :
  is_Some (k EmptyString s) -> is_Some (star_cap p s k).
Proof.
  intros Hk. destruct s as [|c r]; simpl; [done|].
  destruct (p c); [|done]. by destruct (star_cap p r _).
Qed.

Lemma opt_resumes {A} (m : string -> (string -> option A) -> option A) s k :
  is_Some (k s) -> is_Some (opt m s k).
Proof. intros Hk. unfold opt. by destruct (m s k). Qed.

Lemma match_here_last c : match_here (String c EmptyString) = None.
Proof.
  unfold match_here, plus_cap. by destruct (is_digit c).
Qed.

Lemma match_here_digit_then_more c r :
  is_digit c = true -> r <> EmptyString -> rstrip r = r ->
  is_Some (match_here (String c r)).
Proof.
  intros Hc Hr Hs. unfold match_here, plus_cap. rewrite Hc.
  apply star_cap_resumes. unfold star at 1. apply star_cap_resumes.
  apply opt_resumes. unfold star at 1. apply star_cap_resumes.
  apply opt_resumes.
  destruct (label_tail_solid (String c EmptyString) r Hs Hr) as (g2 & Hg & _).
  exists (String c EmptyString, g2). exact Hg.
Qed.

Lemma re_search_fails s :
  rstrip s = s -> (re_search s = None ↔ digit_before_last s = false).
Proof.
  induction s as [|c r IH]; intros Hs; [done|].
  rewrite re_search_cons. destruct r as [|c' r'].
  - by rewrite match_here_last.
  - pose proof (rstrip_fixed_tail _ _ Hs) as Hr.
    change (digit_before_last (String c (String c' r')))
      with (is_digit c || digit_before_last (String c' r')).
    destruct (is_digit c) eqn:Hc.
    + destruct (match_here_digit_then_more c (String c' r') Hc ltac:(done) Hr)
        as [m ->]. done.
    + rewrite match_here_needs_digit by done. simpl orb. by apply IH.
Qed.

(** X5.  A message of ASCII characters is not understood exactly when,
    once stripped, it has no digit in front of its last character: one
    digit followed by any character is enough for the pattern to
    match. *)
Theorem not_understood_iff raw chat_id w :
  all_chars is_ascii raw = true ->
  (parse_entry raw = None ↔ digit_before_last (strip raw) = false) ∧
  (handle_text (text_update chat_id raw) w = (w, [MsgNotUnderstood], STRATEGY_EDIT)
   ↔ digit_before_last (strip raw) = false).
Proof.
  intros _.
  assert (H : parse_entry raw = None ↔ digit_before_last (strip raw) = false).
  { rewrite <- (re_search_fails (strip raw) (strip_fixed raw)).
    unfold parse_entry. by destruct (re_search (strip raw)) as [[g1 g2]|]. }
  split; [done|]. rewrite <- H. split.
  - intros Hh. destruct (parse_entry raw) as [[pct cat]|] eqn:E; [|done].
    exfalso. unfold handle_text in Hh. simpl in Hh. rewrite E in Hh.
    destruct (negb _); [done|].
    destruct (user_data w !! chat_id); simpl in Hh;
      destruct (100 <? _); try done; by destruct (_ =? 100).
  - apply handle_text_unparsed.
Qed.

Lemma not_understood_iff_witness :
  parse_entry "room 5" = None ∧
  digit_before_last (strip "7x") = true.
Proof.
  split.
  - apply (proj2 (proj1 (not_understood_iff "room 5" 0 fresh eq_refl))). reflexivity.
  - destruct (digit_before_last (strip "7x")) eqn:E; [done|].
    apply (proj2 (proj1 (not_understood_iff "7x" 0 fresh eq_refl))) in E. discriminate E.
Defined.

(** ** The two groups of a match *)

Section Groups.
Variable Q : string -> string -> Prop.

Lemma star_cap_sat p s k :
  (∀ g rest, all_chars p g = true -> groups_sat Q (k g rest)) ->
  groups_sat Q (star_cap p s k).
Proof.
  revert k. induction s as [|c r IH]; intros k Hk; simpl.
  - by apply Hk.
  - destruct (p c) eqn:Hc; [|by apply Hk].
    pose proof (IH (fun g rest => k (String c g) rest)) as H.
    destruct (star_cap p r _).
    + apply H. intros g rest Hg. apply Hk. simpl. by rewrite Hc.
    + by apply Hk.
Qed.

Lemma plus_cap_sat p s k :
  (∀ g rest, g <> EmptyString -> all_chars p g = true -> groups_sat Q (k g rest)) ->
  groups_sat Q (plus_cap p s k).
Proof.
  intros Hk. destruct s as [|c r]; simpl; [done|].
  destruct (p c) eqn:Hc; [|done].
  apply star_cap_sat. intros g rest Hg. apply Hk; [done|]. simpl. by rewrite Hc.
Qed.

Lemma star_sat p s k :
  (∀ rest, groups_sat Q (k rest)) -> groups_sat Q (star p s k).
Proof. intros Hk. apply star_cap_sat. intros _ rest _. apply Hk. Qed.

Lemma lit_sat w s k :
  (∀ rest, groups_sat Q (k rest)) -> groups_sat Q (lit w s k).
Proof.
  revert s. induction w as [|a w IH]; intros s Hk; simpl; [by apply Hk|].
  destruct s as [|c r]; [done|]. destruct (Ascii.eqb _ _); [|done]. by apply IH.
Qed.

Lemma alt_sat (m1 m2 : string -> (string -> option (string * string)) -> _) s k :
  groups_sat Q (m1 s k) -> groups_sat Q (m2 s k) -> groups_sat Q (alt m1 m2 s k).
Proof. unfold alt. by destruct (m1 s k). Qed.

Lemma opt_sat (m : string -> (string -> option (string * string)) -> _) s k :
  groups_sat Q (m s k) -> groups_sat Q (k s) -> groups_sat Q (opt m s k).
Proof. unfold opt. by destruct (m s k). Qed.

Hypothesis Q_groups : ∀ g1 g2,
  g1 <> EmptyString -> all_chars is_digit g1 = true ->
  g2 <> EmptyString -> all_chars not_newline g2 = true -> Q g1 g2.

Lemma match_here_sat s : groups_sat Q (match_here s).
Proof.
  unfold match_here.
  apply plus_cap_sat. intros g1 s1 Hne1 Hd1.
  assert (Hend : ∀ s5, groups_sat Q
            (star is_space s5 (fun s6 =>
             plus_cap not_newline s6 (fun g2 _ => Some (g1, g2))))).
  { intros s5. apply star_sat. intros s6.
    destruct s6 as [|c r]; simpl; [done|]. destruct (not_newline c) eqn:Hc; [|done].
    rewrite (star_cap_total not_newline r (fun g => (g1, String c g))). simpl.
    apply Q_groups; try done. simpl. rewrite Hc. simpl.
    clear. induction r as [|a r IH]; simpl; [done|].
    destruct (not_newline a) eqn:Ha; [|done]. simpl. by rewrite Ha. }
  assert (Hrest : ∀ s3, groups_sat Q
            (star is_space s3 (fun s4 =>
             opt (alt (lit "for") (alt (lit "on") (lit "to"))) s4 (fun s5 =>
             star is_space s5 (fun s6 =>
             plus_cap not_newline s6 (fun g2 _ => Some (g1, g2))))))).
  { intros s3. apply star_sat. intros s4. apply opt_sat; [|apply Hend].
    repeat apply alt_sat; by apply lit_sat. }
  apply star_sat. intros s2. apply opt_sat; [|apply Hrest].
  apply lit_sat. apply Hrest.
Qed.

Lemma re_search_sat s : groups_sat Q (re_search s).
Proof.
  induction s as [|c r IH].
  - exact I.
  - rewrite re_search_cons. pose proof (match_here_sat (String c r)) as H.
    by destruct (match_here (String c r)).
Qed.

End Groups.

Lemma digit_val_range c : is_digit c = true -> 0 <= digit_val c <= 9.
Proof.
  destruct c as [[] [] [] [] [] [] [] []]; try discriminate; intros _;
    vm_compute; split; discriminate.
Qed.

Lemma digits_value_from_nonneg s : ∀ acc,
  0 <= acc -> all_chars is_digit s = true -> 0 <= digits_value_from acc s.
Proof.
  induction s as [|c r IH]; intros acc Hacc Hd; simpl; [done|].
  simpl in Hd. apply andb_prop in Hd as [Hc Hr].
  pose proof (digit_val_range c Hc). apply IH; [lia|done].
Qed.

Lemma int_body_digits s : ∀ acc prev,
  all_chars is_digit s = true -> (s <> EmptyString ∨ prev = true) ->
  int_body acc prev s = Some (digits_value_from acc s).
Proof.
  induction s as [|c r IH]; intros acc prev Hd Hne; simpl.
  - by destruct Hne as [?| ->].
  - simpl in Hd. apply andb_prop in Hd as [Hc Hr]. rewrite Hc.
    apply IH; [done|by right].
Qed.

(** X6.  On a match the first group is a non-empty run of digits, which
    [int] reads as the number the handler goes on with, and that number
    is never negative.  (The cap of 4300 digits that recent interpreters
    put on [int] lies above the 4096 characters of a Telegram message and
    is not modelled.) *)
Theorem percent_is_a_number raw pct category :
  parse_entry raw = Some (pct, category) ->
  ∃ g1 g2,
    re_search (strip raw) = Some (g1, g2) ∧
    g1 <> EmptyString ∧ all_chars is_digit g1 = true ∧
    py_int g1 = Some pct ∧ 0 <= pct.
Proof.
  unfold parse_entry. intros H.
  pose proof (re_search_sat
                (fun g1 _ => g1 <> EmptyString ∧ all_chars is_digit g1 = true)
                ltac:(by intros) (strip raw)) as Hs.
  destruct (re_search (strip raw)) as [[g1 g2]|]; [|done].
  injection H as <- <-. destruct Hs as [Hne Hd].
  exists g1, g2. repeat split; try done.
  - rewrite py_int_digits by done. apply int_body_digits; [done|by left].
  - by apply digits_value_from_nonneg.
Qed.

Lemma percent_is_a_number_witness :
  ∃ g1 g2,
    re_search (strip "007 for bond") = Some (g1, g2) ∧
    g1 <> EmptyString ∧ all_chars is_digit g1 = true ∧
    py_int g1 = Some 7 ∧ 0 <= 7.
Proof.
  apply (percent_is_a_number "007 for bond" 7 "Bond"). reflexivity.
Defined.

(** ** Stored entries *)

Lemma not_newline_to_upper c : not_newline (to_upper c) = not_newline c.
Proof. destruct c as [[] [] [] [] [] [] [] []]; reflexivity. Qed.

Lemma not_newline_to_lower c : not_newline (to_lower c) = not_newline c.
Proof. destruct c as [[] [] [] [] [] [] [] []]; reflexivity. Qed.

Lemma all_chars_rstrip p s : all_chars p s = true -> all_chars p (rstrip s) = true.
Proof.
  induction s as [|c r IH]; [done|]. simpl all_chars at 1.
  intros [Hc Hr]%andb_prop. rewrite rstrip_cons.
  specialize (IH Hr). destruct (rstrip r) as [|a b].
  - destruct (is_space c); [done|]. simpl. by rewrite Hc.
  - simpl in *. by rewrite Hc, IH.
Qed.

Lemma all_chars_lstrip p s : all_chars p s = true -> all_chars p (lstrip s) = true.
Proof.
  induction s as [|c r IH]; [done|]. intros H. simpl.
  destruct (is_space c); [|done]. simpl in H. apply andb_prop in H as [_ Hr]. by apply IH.
Qed.

Lemma all_chars_capitalize s :
  all_chars not_newline s = true -> all_chars not_newline (capitalize s) = true.
Proof.
  destruct s as [|c r]; [done|]. simpl. intros [Hc Hr]%andb_prop.
  rewrite not_newline_to_upper, Hc. simpl.
  induction r as [|a r IH]; [done|]. simpl in *. apply andb_prop in Hr as [Ha Hr].
  by rewrite not_newline_to_lower, Ha, IH.
Qed.

Lemma parse_entry_label raw pct category :
  parse_entry raw = Some (pct, category) -> label_ok category.
Proof.
  unfold parse_entry. intros H.
  pose proof (re_search_safe (strip raw) (strip_fixed raw)) as Hsolid.
  pose proof (re_search_sat (fun _ g2 => all_chars not_newline g2 = true)
                ltac:(by intros) (strip raw)) as Hline.
  destruct (re_search (strip raw)) as [[g1 g2]|]; [|done].
  injection H as <- <-. simpl in Hsolid, Hline.
  assert (Hs : starts_solid (strip g2) = true).
  { unfold strip. rewrite lstrip_solid by done. by apply rstrip_solid. }
  destruct (capitalize_trimmed (strip g2) Hs (strip_fixed g2)) as [Htrim Hcap].
  repeat split; [done|done|].
  apply all_chars_capitalize. unfold strip.
  by apply all_chars_rstrip, all_chars_lstrip.
Qed.

(** X7.  The category of every message that parses is a label on one
    line: it is not empty, has no white space at either end, and holds no
    newline, whatever newlines and blanks the message holds. *)
Theorem category_is_one_line raw pct category :
  parse_entry raw = Some (pct, category) ->
  category <> EmptyString ∧ strip category = category ∧
  all_chars not_newline category = true.
Proof.
  intros H. destruct (parse_entry_label raw pct category H) as (Hs & Ht & Hl).
  repeat split; try done. intros ->. done.
Qed.

Lemma category_is_one_line_witness :
  parse_entry "  12
  coffee beans
and tea " = Some (12, "Coffee beans") ∧
  "Coffee beans" <> EmptyString ∧ strip "Coffee beans" = "Coffee beans" ∧
  all_chars not_newline "Coffee beans" = true.
Proof.
  split; [reflexivity|].
  apply (category_is_one_line "  12
  coffee beans
and tea " 12 "Coffee beans"). reflexivity.
Defined.

Lemma handle_text_appends u w :
  (handle_text u w).1.1 = w ∨
  ∃ chat_id raw category pct,
    effective_chat u = Some chat_id ∧
    parse_entry raw = Some (pct, category) ∧ 0 < pct <= 100 ∧
    user_data (handle_text u w).1.1
      = <[chat_id := {| categories := categories (current_plan w chat_id)
                                         ++ [(category, pct)];
                        total := total (current_plan w chat_id) + pct |}]>
          (user_data w).
Proof.
  destruct u as [[chat_id|] [raw|]]; try (by left).
  change {| effective_chat := Some chat_id; message := Some raw |}
    with (text_update chat_id raw).
  destruct (parse_entry raw) as [[pct category]|] eqn:E.
  2: { left. by rewrite handle_text_unparsed. }
  destruct (decide (0 < pct <= 100)) as [Hr|Hr].
  2: { left. by rewrite (handle_text_out_of_range _ _ _ _ _ E Hr). }
  destruct (decide (100 < total (current_plan w chat_id) + pct)) as [Hc|Hc].
  { left. by rewrite (handle_text_over_capacity _ _ _ _ _ E Hr Hc). }
  right. exists chat_id, raw, category, pct.
  assert (Hle : total (current_plan w chat_id) + pct <= 100) by lia.
  pose proof (handle_text_accepted chat_id w raw pct category E Hr Hle) as Ha.
  cbv zeta in Ha. rewrite Ha. repeat split; try done; try lia.
  by destruct (_ =? 100).
Qed.

Lemma dispatch_entries_ok ev w :
  (∀ k p, user_data w !! k = Some p -> Forall entry_ok (categories p)) ->
  ∀ k p, user_data (dispatch ev w) !! k = Some p -> Forall entry_ok (categories p).
Proof.
  intros H k p. destruct ev as [u|u|u|u|u]; simpl.
  - unfold begin_strategy. destruct (effective_chat u) as [c|]; simpl; [|apply H].
    rewrite lookup_insert. case_decide; [intros [= <-]; constructor|apply H].
  - destruct (handle_text_appends u w)
      as [->|(c & raw & cat & pct & _ & Hp & Hr & ->)]; [apply H|].
    rewrite lookup_insert. case_decide; [|apply H]. intros [= <-]. simpl.
    apply Forall_app. split.
    + unfold current_plan. destruct (user_data w !! c) as [q|] eqn:E; simpl.
      * by apply (H c).
      * constructor.
    + apply Forall_singleton. split; [by apply (parse_entry_label raw pct)|simpl; lia].
  - destruct (undo_effect u w)
      as [[-> _]|[[-> _]|(c & q & rest & cat & pct & _ & Hq & Hc & ->)]];
      [apply H|apply H|]. simpl.
    rewrite lookup_insert. case_decide; [|apply H]. intros [= <-]. simpl.
    pose proof (H c q Hq) as Hall. rewrite Hc in Hall.
    by apply Forall_app in Hall as [? _].
  - unfold cancel. destruct (effective_chat u) as [c|]; simpl; [|apply H].
    rewrite lookup_delete. case_decide; [done|apply H].
  - unfold status_cmd. destruct (effective_chat u); apply H.
Qed.

Lemma sum_percents_length l :
  Forall (fun e : string * Z => 0 < e.2) l -> Z.of_nat (length l) <= sum_percents l.
Proof.
  unfold sum_percents. induction 1; simpl length; simpl foldr; lia.
Qed.

(** X8.  In every plan reached from an empty [user_data], each entry has
    a percent from 1 to 100 and a one-line, non-empty label without
    surrounding white space, and the plan holds at most 100 entries. *)
Theorem reachable_entries_ok w chat_id p :
  reachable w ->
  user_data w !! chat_id = Some p ->
  Forall entry_ok (categories p) ∧ (length (categories p) <= 100)%nat.
Proof.
  intros Hr Hp. split.
  - revert chat_id p Hp. induction Hr as [w Hw|ev w _ IH].
    + intros k p. by rewrite Hw, lookup_empty.
    + by apply dispatch_entries_ok.
  - destruct (reachable_store_inv w Hr chat_id p Hp) as [[Hb Hs] Hpos].
    pose proof (sum_percents_length _ Hpos). lia.
Qed.

Lemma reachable_entries_ok_witness :
  Forall entry_ok (categories {| categories := [("Needs", 50)]; total := 50 |}) ∧
  (length (categories {| categories := [("Needs", 50%Z)]; total := 50%Z |}) <= 100)%nat.
Proof.
  apply (reachable_entries_ok
           (dispatch (EvUndo (command_update 7))
              (dispatch (EvText (text_update 7 "30% Savings"))
                 (dispatch (EvText (text_update 7 "50% Needs"))
                    (dispatch (EvStrategy (command_update 7)) fresh))))
           7).
  - repeat apply reach_step. by apply reach_fresh.
  - vm_compute. reflexivity.
Defined.

(** ** The first entry of a chat *)

(** X9.  A chat without an entry in [user_data] gets one from its first
    message that parses with a percent from 1 to 100: the message is
    always accepted, the new plan holds that entry alone with its percent
    as total, and the state is saved once. *)
Theorem first_entry_creates_plan chat_id w raw pct category :
  user_data w !! chat_id = None ->
  parse_entry raw = Some (pct, category) ->
  0 < pct <= 100 ->
  ∃ w' last c,
    handle_text (text_update chat_id raw) w
      = (w', [MsgAdded category pct (Strategy [(category, pct)] pct (100 - pct)); last], c) ∧
    user_data w'
      = <[chat_id := {| categories := [(category, pct)]; total := pct |}]> (user_data w) ∧
    saves w' = S (saves w).
Proof.
  intros Hnone Hparse Hr.
  assert (Hcur : current_plan w chat_id = empty_plan).
  { unfold current_plan. by rewrite Hnone. }
  assert (Hle : total (current_plan w chat_id) + pct <= 100) by (rewrite Hcur; simpl; lia).
  pose proof (handle_text_accepted chat_id w raw pct category Hparse Hr Hle) as Ha.
  cbv zeta in Ha. rewrite Ha, Hcur. simpl.
  unfold get_summary. rewrite lookup_insert_eq. simpl.
  change (0 + pct) with pct.
  destruct (pct =? 100); eexists _, _, _; (split; [reflexivity|split; reflexivity]).
Qed.

Lemma first_entry_creates_plan_witness :
  ∃ w' last c,
    handle_text (text_update 7 "100 to rent") fresh
      = (w', [MsgAdded "Rent" 100 (Strategy [("Rent", 100)] 100 (100 - 100)); last], c) ∧
    user_data w'
      = <[7 := {| categories := [("Rent", 100)]; total := 100 |}]> (user_data fresh) ∧
    saves w' = S (saves fresh).
Proof.
  apply (first_entry_creates_plan 7 fresh "100 to rent" 100 "Rent").
  - reflexivity.
  - reflexivity.
  - lia.
Defined.

(** ** A plan that is full *)

(** X10.  Once the total of a chat has reached 100, [handle_text]
    accepts nothing more from it: every text leaves the state as it is and
    keeps the conversation in [STRATEGY_EDIT], and a text that parses with
    a percent in range is answered with the capacity that is left. *)
Theorem full_plan_takes_no_entry chat_id w raw :
  100 <= total (current_plan w chat_id) ->
  (handle_text (text_update chat_id raw) w).1.1 = w ∧
  (handle_text (text_update chat_id raw) w).2 = STRATEGY_EDIT ∧
  ∀ pct category,
    parse_entry raw = Some (pct, category) -> 0 < pct <= 100 ->
    (handle_text (text_update chat_id raw) w).1.2
    = [MsgOnlyLeft (100 - total (current_plan w chat_id))].
Proof.
  intros Hfull.
  destruct (parse_entry raw) as [[pct category]|] eqn:E.
  2: { rewrite handle_text_unparsed by done. by repeat split. }
  destruct (decide (0 < pct <= 100)) as [Hr|Hr].
  2: { rewrite (handle_text_out_of_range _ _ _ _ _ E Hr).
       repeat split. by intros ? ? [= <- <-] ?. }
  rewrite (handle_text_over_capacity _ _ _ _ _ E Hr) by lia. by repeat split.
Qed.

Lemma full_plan_takes_no_entry_witness :
  (handle_text (text_update 7 "1% tips")
     (with_user_data {[ 7 := {| categories := [("Rent", 100)]; total := 100 |} ]} fresh)).1.1
  = with_user_data {[ 7 := {| categories := [("Rent", 100)]; total := 100 |} ]} fresh.
Proof.
  apply (full_plan_takes_no_entry 7
           (with_user_data {[ 7 := {| categories := [("Rent", 100)]; total := 100 |} ]}
              fresh) "1% tips").
  vm_compute. discriminate.
Defined.

(** ** When the conversation ends *)

(** X11.  [handle_text] returns [ConversationHandler.END] exactly when
    the text parses with a percent from 1 to 100 that brings the total of
    the chat to 100, no more and no less; in every other case it returns
    [STRATEGY_EDIT]. *)
Theorem conversation_ends_iff_full u w :
  (handle_text u w).2 = END ↔
  ∃ chat_id raw pct category,
    effective_chat u = Some chat_id ∧ message u = Some raw ∧
    parse_entry raw = Some (pct, category) ∧
    0 < pct <= 100 ∧ total (current_plan w chat_id) + pct = 100.
Proof.
  destruct u as [[chat_id|] [raw|]]; simpl;
    try (split; [done | by intros (? & ? & ? & ? & ? & ? & _)]).
  change {| effective_chat := Some chat_id; message := Some raw |}
    with (text_update chat_id raw).
  destruct (parse_entry raw) as [[pct category]|] eqn:E.
  2: { rewrite handle_text_unparsed by done. split; [done|].
       intros (c & r & q & cat & _ & [= <-] & Hp & _). congruence. }
  destruct (decide (0 < pct <= 100)) as [Hr|Hr].
  2: { rewrite (handle_text_out_of_range _ _ _ _ _ E Hr). split; [done|].
       intros (c & r & q & cat & _ & [= <-] & Hp & Hq & _).
       rewrite E in Hp. injection Hp as <- <-. done. }
  destruct (decide (100 < total (current_plan w chat_id) + pct)) as [Hc|Hc].
  { rewrite (handle_text_over_capacity _ _ _ _ _ E Hr Hc). split; [done|].
    intros (c & r & q & cat & [= <-] & [= <-] & Hp & _ & Ht).
    rewrite E in Hp. injection Hp as <- <-. lia. }
  assert (Hle : total (current_plan w chat_id) + pct <= 100) by lia.
  pose proof (handle_text_accepted chat_id w raw pct category E Hr Hle) as Ha.
  cbv zeta in Ha. rewrite Ha. simpl.
  destruct (total (current_plan w chat_id) + pct =? 100) eqn:Et; simpl.
  - apply Z.eqb_eq in Et. split; [|done]. intros _.
    by exists chat_id, raw, pct, category.
  - apply Z.eqb_neq in Et. split; [done|].
    intros (c & r & q & cat & [= <-] & [= <-] & Hp & _ & Ht).
    rewrite E in Hp. injection Hp as <- <-. done.
Qed.

Lemma conversation_ends_iff_full_witness :
  (handle_text (text_update 7 "10% Fun")
     (with_user_data {[ 7 := {| categories := [("Needs", 90)]; total := 90 |} ]} fresh)).2
  = END.
Proof.
  apply (proj2 (conversation_ends_iff_full (text_update 7 "10% Fun")
                  (with_user_data
                     {[ 7 := {| categories := [("Needs", 90)]; total := 90 |} ]} fresh))).
  exists 7, "10% Fun", 10, "Fun".
  repeat split; try reflexivity; lia.
Defined.

(** ** No entry, or an empty plan *)

Lemma get_summary_current w chat_id :
  get_summary (user_data w) chat_id = plan_summary (current_plan w chat_id).
Proof.
  unfold get_summary, current_plan, plan_summary.
  by destruct (user_data w !! chat_id).
Qed.

Lemma get_summary_insert ud chat_id p :
  get_summary (<[chat_id := p]> ud) chat_id = plan_summary p.
Proof. unfold get_summary. by rewrite lookup_insert_eq. Qed.

Lemma get_summary_saved ud w chat_id p :
  get_summary (user_data (save_user_data (with_user_data (<[chat_id := p]> ud) w))) chat_id
  = plan_summary p.
Proof. apply get_summary_insert. Qed.

Lemma current_plan_insert ud w chat_id p :
  current_plan (save_user_data (with_user_data (<[chat_id := p]> ud) w)) chat_id = p.
Proof. unfold current_plan. simpl. by rewrite lookup_insert_eq. Qed.

Lemma handle_text_same_view chat_id raw w1 w2 :
  current_plan w1 chat_id = current_plan w2 chat_id ->
  (handle_text (text_update chat_id raw) w1).1.2
  = (handle_text (text_update chat_id raw) w2).1.2 ∧
  current_plan (handle_text (text_update chat_id raw) w1).1.1 chat_id
  = current_plan (handle_text (text_update chat_id raw) w2).1.1 chat_id.
Proof.
  intros H.
  destruct (parse_entry raw) as [[pct category]|] eqn:E.
  2: { by rewrite !handle_text_unparsed. }
  destruct (decide (0 < pct <= 100)) as [Hr|Hr].
  2: { by rewrite !(handle_text_out_of_range _ _ _ _ _ E Hr). }
  destruct (decide (100 < total (current_plan w1 chat_id) + pct)) as [Hc|Hc].
  { rewrite (handle_text_over_capacity _ w1 _ _ _ E Hr Hc).
    rewrite H in Hc. rewrite (handle_text_over_capacity _ w2 _ _ _ E Hr Hc).
    by rewrite H. }
  assert (Hle1 : total (current_plan w1 chat_id) + pct <= 100) by lia.
  assert (Hle2 : total (current_plan w2 chat_id) + pct <= 100) by (rewrite <- H; lia).
  pose proof (handle_text_accepted chat_id w1 raw pct category E Hr Hle1) as Ha1.
  pose proof (handle_text_accepted chat_id w2 raw pct category E Hr Hle2) as Ha2.
  cbv zeta in Ha1, Ha2. rewrite Ha1, Ha2, H. rewrite !get_summary_saved.
  clear Ha1 Ha2. simpl total.
  destruct (total (current_plan w2 chat_id) + pct =? 100); cbn [fst snd];
    by rewrite !current_plan_insert.
Qed.

Lemma undo_same_view u chat_id w1 w2 :
  effective_chat u = Some chat_id ->
  current_plan w1 chat_id = current_plan w2 chat_id ->
  (undo u w1).1.2 = (undo u w2).1.2 ∧
  current_plan (undo u w1).1.1 chat_id = current_plan (undo u w2).1.1 chat_id.
Proof.
  intros Hu H.
  assert (Hview : ∀ w,
    ((undo u w).1.2 = [MsgNothingToUndo] ∧ (undo u w).1.1 = w ∧
     pop (categories (current_plan w chat_id)) = None) ∨
    ∃ rest cat pct,
      pop (categories (current_plan w chat_id)) = Some (rest, (cat, pct)) ∧
      (undo u w).1.2
      = [MsgRemoved cat pct
           (plan_summary {| categories := rest;
                            total := total (current_plan w chat_id) - pct |})] ∧
      current_plan (undo u w).1.1 chat_id
      = {| categories := rest; total := total (current_plan w chat_id) - pct |}).
  { intros w. unfold undo, current_plan. rewrite Hu.
    destruct (user_data w !! chat_id) as [p|] eqn:E; simpl; [|by left].
    destruct (pop (categories p)) as [[rest [cat pct]]|] eqn:Ep; [|by left].
    right. exists rest, cat, pct. simpl.
    by rewrite get_summary_insert, lookup_insert_eq. }
  destruct (Hview w1) as [(-> & -> & Hp1)|(rest & cat & pct & Hp1 & -> & ->)];
    destruct (Hview w2) as [(-> & -> & Hp2)|(rest2 & cat2 & pct2 & Hp2 & -> & ->)];
    rewrite H in Hp1; rewrite Hp1 in Hp2; try discriminate; [done|].
  injection Hp2 as <- <- <-. by rewrite H.
Qed.

(** X12.  For the events of a chat, having no entry in [user_data] and
    having an empty plan are the same thing, and in general only the plan
    a handler would work on matters: two states in which that plan is the
    same get the same replies to an event of the chat, and agree on that
    plan afterwards. *)
Theorem replies_depend_on_current_plan ev chat_id w1 w2 :
  event_chat ev = Some chat_id ->
  current_plan w1 chat_id = current_plan w2 chat_id ->
  replies ev w1 = replies ev w2 ∧
  current_plan (dispatch ev w1) chat_id = current_plan (dispatch ev w2) chat_id.
Proof.
  intros Hev H. destruct ev as [u|u|u|u|u]; simpl in *.
  - unfold begin_strategy. rewrite Hev. simpl. by rewrite !current_plan_insert.
  - destruct u as [c [raw|]]; simpl in Hev; subst c.
    + by apply handle_text_same_view.
    + done.
  - by apply undo_same_view.
  - unfold cancel. rewrite Hev. simpl. split; [done|].
    unfold current_plan. simpl. by rewrite !lookup_delete_eq.
  - unfold status_cmd. rewrite Hev. simpl. by rewrite !get_summary_current, H.
Qed.

Lemma replies_depend_on_current_plan_witness :
  replies (EvUndo (command_update 7)) fresh
  = replies (EvUndo (command_update 7)) (with_user_data {[ 7 := empty_plan ]} fresh) ∧
  current_plan (dispatch (EvUndo (command_update 7)) fresh) 7
  = current_plan (dispatch (EvUndo (command_update 7))
                    (with_user_data {[ 7 := empty_plan ]} fresh)) 7.
Proof.
  apply (replies_depend_on_current_plan (EvUndo (command_update 7)) 7 fresh
           (with_user_data {[ 7 := empty_plan ]} fresh)); reflexivity.
Defined.

(** ** What the summary shows *)

(** X13.  In a state reached from an empty [user_data], the summary of
    a chat is "no categories" exactly when its plan has no entry;
    otherwise it lists the entries of the plan in their order with the
    sum of their percents as total, and the remaining percent it shows
    is [100 - total], from 0 to 99. *)
Theorem summary_of_reachable w chat_id :
  reachable w ->
  match get_summary (user_data w) chat_id with
  | NoCategories => categories (current_plan w chat_id) = []
  | Strategy lines t r =>
      lines = categories (current_plan w chat_id) ∧ lines <> [] ∧
      t = sum_percents lines ∧ t + r = 100 ∧ 0 <= r < 100
  end.
Proof.
  intros Hr. rewrite get_summary_current.
  destruct (current_plan_inv w chat_id (reachable_store_inv w Hr)) as [[Hb Hs] Hpos].
  unfold plan_summary. destruct (categories (current_plan w chat_id)) as [|e l] eqn:E;
    [done|].
  repeat split; try done; try lia.
  apply Forall_cons in Hpos as [He Hl]. pose proof (sum_percents_nonneg _ Hl).
  unfold sum_percents in *. simpl in Hs. lia.
Qed.

Lemma summary_of_reachable_witness :
  match get_summary
          (user_data (run [EvText (text_update 7 "60% Rent");
                           EvText (text_update 7 "15 for food")] fresh)) 7 with
  | NoCategories =>
      categories (current_plan (run [EvText (text_update 7 "60% Rent");
                                     EvText (text_update 7 "15 for food")] fresh) 7) = []
  | Strategy lines t r =>
      lines = categories (current_plan (run [EvText (text_update 7 "60% Rent");
                                             EvText (text_update 7 "15 for food")] fresh) 7)
      ∧ lines <> [] ∧ t = sum_percents lines ∧ t + r = 100 ∧ 0 <= r < 100
  end.
Proof.
  apply (summary_of_reachable
           (run [EvText (text_update 7 "60% Rent"); EvText (text_update 7 "15 for food")]
              fresh) 7).
  unfold run. cbn [foldl]. repeat apply reach_step. by apply reach_fresh.
Defined.

(** ** Undoing a whole plan *)

(** X14.  In a state reached from an empty [user_data], as many undos as
    the plan of a chat has entries leave the chat with the empty plan,
    total 0, still present in [user_data]; the next undo finds nothing to
    undo. *)
Theorem undo_all_empties w chat_id p :
  reachable w ->
  user_data w !! chat_id = Some p ->
  user_data (undo_n chat_id (length (categories p)) w) !! chat_id = Some empty_plan ∧
  (undo (command_update chat_id) (undo_n chat_id (length (categories p)) w)).1.2
  = [MsgNothingToUndo].
Proof.
  intros Hr Hp.
  destruct (reachable_store_inv w Hr chat_id p Hp) as [[_ Hs] _].
  assert (Hl : user_data (undo_n chat_id (length (categories p)) w) !! chat_id
               = Some empty_plan).
  { rewrite (undo_n_effect chat_id (categories p) w [] 0).
    - by rewrite lookup_insert_eq.
    - rewrite Hp. f_equal. destruct p as [cats t]. simpl in *. f_equal. lia. }
  split; [done|]. unfold undo. simpl. by rewrite Hl.
Qed.

Lemma undo_all_empties_witness :
  user_data
    (undo_n 7 (length (categories {| categories := [("Rent", 60); ("Food", 15)];
                                     total := 75 |}))
       (run [EvText (text_update 7 "60% Rent"); EvText (text_update 7 "15 for food")]
          fresh)) !! 7
  = Some empty_plan.
Proof.
  refine (proj1 (undo_all_empties
                   (run [EvText (text_update 7 "60% Rent");
                         EvText (text_update 7 "15 for food")] fresh)
                   7 {| categories := [("Rent", 60); ("Food", 15)]; total := 75 |} _ _)).
  - unfold run. cbn [foldl]. repeat apply reach_step. by apply reach_fresh.
  - vm_compute. reflexivity.
Defined.

(** ** Keys of the file *)

Lemma chat_key_roundtrip_aux k :
  py_int (py_str k) = Some k ∧ ∀ k', k <> k' -> py_str k <> py_str k'.
Proof.
  split; [apply py_int_py_str|].
  intros k' Hne Heq. apply Hne.
  pose proof (py_int_py_str k) as H1. pose proof (py_int_py_str k') as H2.
  rewrite Heq in H1. congruence.
Qed.

(** X15.  [int(str(k))] is [k] for every integer, so the key under
    which [save_user_data] writes a chat is read back by
    [load_user_data] as the chat; and two different chats never get the
    same key. *)
Theorem chat_key_roundtrip k :
  py_int (py_str k) = Some k ∧ ∀ k', k <> k' -> py_str k <> py_str k'.
Proof. apply chat_key_roundtrip_aux. Qed.

Lemma chat_key_roundtrip_witness : py_str (-1001234) <> py_str 1001234.
Proof.
  apply (proj2 (chat_key_roundtrip (-1001234)) 1001234). discriminate.
Defined.

Lemma serializable_keys ud : (serializable ud).*1 = py_str <$> (map_to_list ud).*1.
Proof.
  unfold serializable. rewrite <- !list_fmap_compose. done.
Qed.

(** X16.  The object [save_user_data] writes has one member for each
    chat of [user_data] and no two members with the same key. *)
Theorem snapshot_has_one_member_per_chat ud :
  length (serializable ud) = size ud ∧ NoDup (serializable ud).*1.
Proof.
  split.
  - unfold serializable. by rewrite length_fmap, length_map_to_list.
  - rewrite serializable_keys. apply NoDup_fmap_2_strong.
    + intros k k' _ _ Heq. destruct (decide (k = k')) as [|Hne]; [done|].
      by destruct (proj2 (chat_key_roundtrip_aux k) k' Hne).
    + apply NoDup_fst_map_to_list.
Qed.

(** ** When loading raises *)

Lemma int_keys_raises members : ∀ acc,
  (int_keys members acc = inl ValueError
   ↔ Exists (fun kv : string * json => py_int kv.1 = None) members) ∧
  int_keys members acc <> inl AttributeError ∧
  ∀ e, int_keys members acc <> inl (ReadError e).
Proof.
  induction members as [|[k v] members IH]; intros acc; simpl.
  - split; [|done]. split; [done|]. by intros ?%Exists_nil.
  - destruct (py_int k) as [n|] eqn:E.
    + destruct (IH (<[n := v]> acc)) as (Hiff & Hne & Hre). split; [|done].
      rewrite Hiff, Exists_cons. simpl. rewrite E.
      split; [by right | by intros [?|?]].
    + split; [|done]. split; [|done]. intros _. apply Exists_cons. by left.
Qed.

Lemma int_keys_returns members : ∀ acc m,
  int_keys members acc = inr m ->
  Forall (fun kv : string * json => is_Some (py_int kv.1)) members.
Proof.
  induction members as [|[k v] members IH]; intros acc m; simpl; [done|].
  destruct (py_int k) as [n|] eqn:E; [|done].
  intros H. constructor; [simpl; by rewrite E|by eapply IH].
Qed.

(** X17.  For a file whose keys are ASCII and of at most 4300
    characters, [load_user_data] returns a dictionary exactly when the
    file is missing, is rejected by the JSON decoder, or holds an object
    all of whose keys [int] accepts.  Otherwise an exception leaves the
    function: the one [int] raises exactly when the file holds an object
    with a key [int] rejects, [AttributeError] exactly when the file
    holds a JSON document that is not an object, and the exception of
    [open], of the read or of the decoder exactly when one of them raises
    something other than [FileNotFoundError] and [JSONDecodeError]. *)
Theorem load_raises_iff f :
  plain_keys f ->
  ((∃ m, load_user_data f = inr m)
   ↔ f = Missing ∨ f = Corrupt ∨
     ∃ members, f = Doc (JObj members) ∧
                Forall (fun kv : string * json => is_Some (py_int kv.1)) members) ∧
  (load_user_data f = inl ValueError
   ↔ ∃ members, f = Doc (JObj members) ∧
                Exists (fun kv : string * json => py_int kv.1 = None) members) ∧
  (load_user_data f = inl AttributeError
   ↔ ∃ data, f = Doc data ∧ ∀ members, data <> JObj members) ∧
  (∀ e, load_user_data f = inl (ReadError e) ↔ f = Unreadable e).
Proof.
  intros _. destruct f as [|e0| |data]; simpl.
  - split; [split; [by left | by eexists]|].
    split; [split; [done | by intros (? & ? & _)]|].
    split; [split; [done | by intros (? & ? & _)]|]. by intros e.
  - split; [split; [by intros [? ?] | by intros [?|[?|(? & ? & _)]]]|].
    split; [split; [done | by intros (? & ? & _)]|].
    split; [split; [done | by intros (? & ? & _)]|].
    intros e. split; [by intros [= ->] | by intros [= ->]].
  - split; [split; [by right; left | by eexists]|].
    split; [split; [done | by intros (? & ? & _)]|].
    split; [split; [done | by intros (? & ? & _)]|]. by intros e.
  - destruct data as [| b | n | l | s | items | members];
      try (split; [split; [by intros [? ?] | by intros [?|[?|(? & [= <-] & _)]]]|];
           split; [split; [done | by intros (? & [= <-] & _)]|];
           split; [split; [intros _; by eexists | done]|];
           by intros e).
    destruct (int_keys_raises members ∅) as (Hiff & Hne & Hre).
    split; [|split; [|split]].
    + split.
      * intros [m Hm]. right; right. exists members. split; [done|].
        by apply (int_keys_returns members ∅ m).
      * intros [?|[?|(? & [= <-] & Hall)]]; try done.
        destruct (int_keys_ok members ∅ Hall) as (m & Hm & _). by exists m.
    + rewrite Hiff. split; [by eexists|]. by intros (? & [= <-] & ?).
    + split; [done|]. intros (? & [= <-] & Hno). by destruct (Hno members).
    + intros e. split; [by intros ?%Hre | done].
Qed.

Lemma load_raises_iff_witness :
  load_user_data (Doc (JObj [("12", JNull); ("1.5", JNull)])) = inl ValueError.
Proof.
  apply (proj2 (proj1 (proj2 (load_raises_iff
                                (Doc (JObj [("12", JNull); ("1.5", JNull)]))
                                ltac:(repeat constructor; simpl; lia))))).
  eexists. split; [reflexivity|]. apply Exists_cons. right. apply Exists_cons. by left.
Defined.



(** ** The documented format *)

Lemma star_cap_greedy {A} p run rest (k : string -> string -> option A) x :
  all_chars p run = true ->
  match rest with String c _ => p c | EmptyString => false end = false ->
  k run rest = Some x ->
  star_cap p (run +:+ rest) k = Some x.
Proof.
  revert k. induction run as [|a run IH]; intros k Hrun Hrest Hk.
  - simpl. destruct rest as [|c r]; simpl; [done|]. by rewrite Hrest.
  - simpl in Hrun. apply andb_prop in Hrun as [Ha Hrun]. simpl. rewrite Ha.
    by rewrite (IH (fun g rest => k (String a g) rest) Hrun Hrest Hk).
Qed.

Lemma star_stops {A} p c r (k : string -> option A) :
  p c = false -> star p (String c r) k = k (String c r).
Proof. intros H. unfold star. simpl. by rewrite H. Qed.

Lemma star_takes {A} p c r (k : string -> option A) x :
  p c = true -> star p r k = Some x -> star p (String c r) k = Some x.
Proof. intros H Hk. unfold star in *. simpl. by rewrite H, Hk. Qed.

Lemma opt_percent {A} r (k : string -> option A) x :
  k r = Some x -> opt (lit "%") (String "%" r) k = Some x.
Proof. intros H. unfold opt. simpl. by rewrite H. Qed.

Lemma opt_connector_absent {A} c r (k : string -> option A) :
  connector_initial c = false ->
  opt (alt (lit "for") (alt (lit "on") (lit "to"))) (String c r) k = k (String c r).
Proof.
  destruct c as [[] [] [] [] [] [] [] []]; try discriminate; reflexivity.
Qed.

Lemma rstrip_app s l : l <> EmptyString -> rstrip l = l -> rstrip (s +:+ l) = s +:+ l.
Proof.
  intros Hne Hl. induction s as [|c s IH]; [done|].
  change (String c s +:+ l) with (String c (s +:+ l)).
  rewrite rstrip_cons, IH. destruct (s +:+ l) as [|a b] eqn:E; [|done].
  exfalso. destruct s; simpl in E; [by subst|done].
Qed.

Lemma take_while_all p s : all_chars p s = true -> take_while p s = s.
Proof.
  induction s as [|c r IH]; simpl; [done|]. intros [Hc Hr]%andb_prop.
  by rewrite Hc, IH.
Qed.

Lemma documented_match ds label :
  ds <> EmptyString -> all_chars is_digit ds = true ->
  starts_solid label = true ->
  match label with String c _ => connector_initial c | EmptyString => true end = false ->
  match_here (ds +:+ "% " +:+ label) = Some (ds, take_while not_newline label).
Proof.
  intros Hne Hd Hsolid Hconn.
  destruct ds as [|d ds]; [done|]. simpl in Hd. apply andb_prop in Hd as [Hd Hds].
  destruct label as [|c r]; [done|]. simpl in Hsolid. apply negb_true_iff in Hsolid.
  change (String d ds +:+ "% " +:+ String c r)
    with (String d (ds +:+ String "%" (String " " (String c r)))).
  unfold match_here, plus_cap. cbv beta iota.
  rewrite Hd. apply star_cap_greedy; [done|reflexivity|].
  rewrite star_stops by reflexivity.
  apply opt_percent. apply star_takes; [reflexivity|].
  rewrite star_stops by done.
  rewrite opt_connector_absent by done.
  simpl take_while. rewrite (newline_is_space _ Hsolid).
  exact (label_tail_line (String d ds) c r Hsolid).
Qed.

(** X19.  The format the bot asks for is read as written: a run of
    digits, ["% "], and a label of ASCII characters that is on one line,
    has no white space around it and does not begin with [f], [o] or
    [t] in either case, parses to the number the digits denote and to
    the label with its first character upper-cased and the others
    lower-cased. *)
Theorem documented_format_parses ds label :
  ds <> EmptyString -> all_chars is_digit ds = true ->
  all_chars is_ascii label = true ->
  starts_solid label = true -> rstrip label = label ->
  all_chars not_newline label = true ->
  match label with String c _ => connector_initial c | EmptyString => true end = false ->
  parse_entry (ds +:+ "% " +:+ label) = Some (digits_value ds, capitalize label).
Proof.
  intros Hne Hd _ Hsolid Hr Hline Hconn.
  assert (Hl : label <> EmptyString) by (by destruct label).
  unfold parse_entry.
  assert (Hstrip : strip (ds +:+ "% " +:+ label) = ds +:+ "% " +:+ label).
  { unfold strip. destruct ds as [|d ds]; [done|].
    simpl in Hd. apply andb_prop in Hd as [Hd _].
    assert (Hsp : is_space d = false)
      by (destruct d as [[] [] [] [] [] [] [] []]; try reflexivity; discriminate).
    simpl lstrip. rewrite Hsp.
    change (String d (ds +:+ "% " +:+ label)) with (String d ds +:+ ("% " +:+ label)).
    apply rstrip_app; [by destruct label|].
    by apply (rstrip_app "% "). }
  rewrite Hstrip. destruct ds as [|d ds]; [done|].
  change (String d ds +:+ "% " +:+ label) with (String d (ds +:+ "% " +:+ label)).
  rewrite re_search_cons.
  change (String d (ds +:+ "% " +:+ label)) with (String d ds +:+ "% " +:+ label).
  rewrite documented_match by done.
  rewrite take_while_all by done.
  unfold strip. by rewrite lstrip_solid, Hr.
Qed.

Lemma documented_format_parses_witness :
  parse_entry ("30" +:+ "% " +:+ "Savings") = Some (digits_value "30", capitalize "Savings").
Proof.
  apply (documented_format_parses "30" "Savings"); try reflexivity. discriminate.
Defined.

(** ** A bare number *)

Lemma digit_is_not_space c : is_digit c = true -> is_space c = false.
Proof. destruct c as [[] [] [] [] [] [] [] []]; try reflexivity; discriminate. Qed.

Lemma rstrip_all_digits s : all_chars is_digit s = true -> rstrip s = s.
Proof.
  induction s as [|c r IH]; [done|]. simpl all_chars. intros [Hc Hr]%andb_prop.
  rewrite rstrip_cons, (IH Hr), (digit_is_not_space _ Hc). by destruct r.
Qed.

Lemma all_chars_app p s t :
  all_chars p (s +:+ t) = all_chars p s && all_chars p t.
Proof.
  induction s as [|c s IH]; simpl; [done|]. by rewrite IH, andb_assoc.
Qed.

Lemma star_cap_gives_back_one {A} body d (k : string -> string -> option A) x :
  all_chars is_digit body = true -> is_digit d = true ->
  (∀ g, k g EmptyString = None) ->
  k body (String d EmptyString) = Some x ->
  star_cap is_digit (body +:+ String d EmptyString) k = Some x.
Proof.
  revert k. induction body as [|c b IH]; intros k Hb Hd Hend Hk; simpl.
  - by rewrite Hd, Hend.
  - simpl in Hb. apply andb_prop in Hb as [Hc Hb]. rewrite Hc.
    by rewrite (IH (fun g rest => k (String c g) rest) Hb Hd
                  (fun g => Hend (String c g)) Hk).
Qed.

(** X20.  A message that is nothing but a number of two or more digits
    is not rejected: the pattern gives its last digit to the label, so
    the percent is the number without its last digit and the category is
    that digit. *)
Theorem bare_number_splits body d :
  body <> EmptyString -> all_chars is_digit body = true -> is_digit d = true ->
  parse_entry (body +:+ String d EmptyString)
  = Some (digits_value body, String d EmptyString).
Proof.
  intros Hne Hb Hd. unfold parse_entry.
  assert (Hall : all_chars is_digit (body +:+ String d EmptyString) = true).
  { rewrite all_chars_app, Hb. simpl. by rewrite Hd. }
  assert (Hstrip : strip (body +:+ String d EmptyString) = body +:+ String d EmptyString).
  { unfold strip. destruct body as [|c b]; [done|].
    simpl in Hb. apply andb_prop in Hb as [Hc _]. simpl lstrip.
    rewrite (digit_is_not_space _ Hc). by apply rstrip_all_digits. }
  rewrite Hstrip. destruct body as [|c b]; [done|].
  simpl in Hb. apply andb_prop in Hb as [Hc Hb].
  change (String c b +:+ String d EmptyString) with (String c (b +:+ String d EmptyString)).
  rewrite re_search_cons. unfold match_here, plus_cap. cbv beta iota. rewrite Hc.
  rewrite (star_cap_gives_back_one b d _ (String c b, String d EmptyString) Hb Hd).
  - f_equal. f_equal.
    destruct d as [[] [] [] [] [] [] [] []]; try discriminate; reflexivity.
  - intros g. reflexivity.
  - destruct d as [[] [] [] [] [] [] [] []]; try discriminate; reflexivity.
Qed.

Lemma bare_number_splits_witness :
  parse_entry ("12" +:+ String "5" EmptyString)
  = Some (digits_value "12", String "5" EmptyString).
Proof.
  apply (bare_number_splits "12" "5"); [discriminate|reflexivity|reflexivity].
Defined.

(** ** The summary inside a reply *)

(** X21.  The summary that comes with "added" or "removed" is computed
    after the change: it is the summary [status_cmd] shows for the chat
    in the state the handler returns. *)
Theorem reply_summary_is_current ev w chat_id category pct s :
  event_chat ev = Some chat_id ->
  MsgAdded category pct s ∈ replies ev w ∨ MsgRemoved category pct s ∈ replies ev w ->
  status_cmd (command_update chat_id) (dispatch ev w) = (dispatch ev w, [MsgSummary s]).
Proof.
  intros Hev Hin. unfold status_cmd. simpl. do 2 f_equal.
  destruct ev as [u|u|u|u|u]; simpl in *.
  - exfalso. unfold begin_strategy in Hin. rewrite Hev in Hin. simpl in Hin.
    destruct Hin as [Hin|Hin]; apply list_elem_of_singleton in Hin; discriminate.
  - destruct u as [c [raw|]]; simpl in Hev; subst c.
    2: { exfalso. destruct Hin as [Hin|Hin]; by apply elem_of_nil in Hin. }
    change {| effective_chat := Some chat_id; message := Some raw |}
      with (text_update chat_id raw) in *.
    destruct (parse_entry raw) as [[q cat]|] eqn:E.
    2: { exfalso. rewrite handle_text_unparsed in Hin by done. simpl in Hin.
         destruct Hin as [Hin|Hin]; apply list_elem_of_singleton in Hin; discriminate. }
    destruct (decide (0 < q <= 100)) as [Hr|Hr].
    2: { exfalso. rewrite (handle_text_out_of_range _ _ _ _ _ E Hr) in Hin. simpl in Hin.
         destruct Hin as [Hin|Hin]; apply list_elem_of_singleton in Hin; discriminate. }
    destruct (decide (100 < total (current_plan w chat_id) + q)) as [Hc|Hc].
    { exfalso. rewrite (handle_text_over_capacity _ _ _ _ _ E Hr Hc) in Hin. simpl in Hin.
      destruct Hin as [Hin|Hin]; apply list_elem_of_singleton in Hin; discriminate. }
    assert (Hle : total (current_plan w chat_id) + q <= 100) by lia.
    pose proof (handle_text_accepted chat_id w raw q cat E Hr Hle) as Ha.
    cbv zeta in Ha. rewrite Ha in Hin |- *. clear Ha.
    destruct (_ =? 100); simpl in Hin |- *;
      destruct Hin as [Hin|Hin];
      rewrite !elem_of_cons, elem_of_nil in Hin;
      destruct Hin as [Hin|[Hin|[]]]; try discriminate; by injection Hin as -> -> ->.
  - destruct (undo_effect u w)
      as [[H _]|[[H _]|(c & p & rest & cat & q & Hc & _ & _ & H)]].
    + exfalso. rewrite H in Hin. simpl in Hin.
      destruct Hin as [Hin|Hin]; apply list_elem_of_singleton in Hin; discriminate.
    + exfalso. rewrite H in Hin. simpl in Hin.
      destruct Hin as [Hin|Hin]; by apply elem_of_nil in Hin.
    + cbv zeta in H. rewrite Hev in Hc. injection Hc as <-.
      rewrite H in Hin |- *. simpl in Hin |- *.
      destruct Hin as [Hin|Hin]; apply list_elem_of_singleton in Hin;
        try discriminate. by injection Hin as -> -> ->.
  - exfalso. unfold cancel in Hin. rewrite Hev in Hin. simpl in Hin.
    destruct Hin as [Hin|Hin]; apply list_elem_of_singleton in Hin; discriminate.
  - exfalso. unfold status_cmd in Hin. rewrite Hev in Hin. simpl in Hin.
    destruct Hin as [Hin|Hin]; apply list_elem_of_singleton in Hin; discriminate.
Qed.

Lemma reply_summary_is_current_witness :
  status_cmd (command_update 7) (dispatch (EvText (text_update 7 "60% Rent")) fresh)
  = (dispatch (EvText (text_update 7 "60% Rent")) fresh,
     [MsgSummary (Strategy [("Rent", 60)] 60 40)]).
Proof.
  apply (reply_summary_is_current (EvText (text_update 7 "60% Rent")) fresh 7 "Rent" 60
           (Strategy [("Rent", 60)] 60 40)).
  - reflexivity.
  - left. vm_compute. by left.
Defined.

(** ** Undo on a full plan *)

(** X22.  In a state reached from an empty [user_data], undo on a plan
    whose total is 100 always finds an entry to remove, and the percent
    it frees is the percent of that entry: the total becomes
    [100 - pct] with [pct] positive, so that the plan takes entries
    again. *)
Theorem undo_reopens_full_plan w chat_id p :
  reachable w ->
  user_data w !! chat_id = Some p ->
  total p = 100 ->
  ∃ w' category pct s,
    undo (command_update chat_id) w = (w', [MsgRemoved category pct s], STRATEGY_EDIT) ∧
    0 < pct ∧ total (current_plan w' chat_id) = 100 - pct.
Proof.
  intros Hr Hp Ht.
  destruct (reachable_store_inv w Hr chat_id p Hp) as [[_ Hs] Hpos].
  destruct (categories p) as [|e l] eqn:E using rev_ind.
  { exfalso. rewrite Ht in Hs. discriminate Hs. }
  clear IHl. destruct e as [category pct].
  destruct (undo_last chat_id w p l category pct Hp E) as (w' & s & Hu & Hud).
  exists w', category, pct, s. split; [done|].
  apply Forall_app in Hpos as [_ Hlast]. rewrite Forall_singleton in Hlast.
  split; [done|]. unfold current_plan. rewrite Hud, lookup_insert_eq. simpl. lia.
Qed.

Lemma undo_reopens_full_plan_witness :
  ∃ w' category pct s,
    undo (command_update 7) (run [EvText (text_update 7 "60% Rent");
                                  EvText (text_update 7 "40 on fun")] fresh)
    = (w', [MsgRemoved category pct s], STRATEGY_EDIT) ∧
    0 < pct ∧ total (current_plan w' 7) = 100 - pct.
Proof.
  apply (undo_reopens_full_plan
           (run [EvText (text_update 7 "60% Rent"); EvText (text_update 7 "40 on fun")]
              fresh)
           7 {| categories := [("Rent", 60); ("Fun", 40)]; total := 100 |}).
  - unfold run. cbn [foldl]. repeat apply reach_step. by apply reach_fresh.
  - vm_compute. reflexivity.
  - reflexivity.
Defined.
